(** * Minesweeper board engine (src/src/App.tsx): embedding and verification

    The engine of [App.tsx] is embedded function by function.  JavaScript
    numbers used as coordinates are [Z] (the neighbour loops compute [row - 1]),
    counters are [nat].  A property read on [undefined] raises a TypeError,
    which is the outcome [Throw]; a loop that is still running when the model
    has no more fuel or random draws is the outcome [Diverge].

    Tile objects and aliasing.  A [Board] of the program is an array of row
    arrays of references to tile objects.  [createEmptyBoard] and [revealBoard]
    allocate one object per cell, [placeMines] and [calculateAdjacentMines]
    replace the reference of a cell by a fresh object, and no function copies
    a reference from one cell to another: every cell owns its tile object.
    [board.map(row => [...row])] copies the row arrays only, so the copy and
    the original hold the same tile objects, and a field write through one is
    seen through the other.  The store of the tile objects of a board is
    therefore the grid of their contents, a [list (list Tile)]; a function
    that writes tile fields ([revealTile], [handleTileRightClick]) is a
    transformer of that store, and every array of rows over the same objects
    reads the store after the write.  The last section checks this reading:
    [revealTileH] is the flood fill written over references and a heap, and
    [revealTileH_sound] shows that it and the store transformer agree. *)

From Stdlib Require Import ZArith Lia List Bool.
From Stdlib Require String.
From stdpp Require Import base list.
Import ListNotations.
Import String.StringSyntax.
Delimit Scope string_scope with string.

Local Open Scope Z_scope.

(** ** Outcomes *)

(** How a call ends: with a value, with a TypeError, or not at all within
    the fuel and the random draws given to it. *)
Inductive res (A : Type) : Type :=
| Ok (a : A)
| Throw
| Diverge.

Arguments Ok {A} a.
Arguments Throw {A}.
Arguments Diverge {A}.

(** Sequencing: an exception or a divergence ends the whole computation. *)
Definition bind {A B : Type} (m : res A) (k : A -> res B) : res B :=
  match m with
  | Ok a => k a
  | Throw => Throw
  | Diverge => Diverge
  end.

Notation "'let*' x ':=' m 'in' k" := (bind m (fun x => k))
  (at level 10, x name, m at level 100, k at level 200, only parsing).
Notation "'let*' ' p ':=' m 'in' k" := (bind m (fun x => match x with p => k end))
  (at level 10, p pattern, m at level 100, k at level 200, only parsing).

(** [for (let x = lo; x < hi; x++) body], the loop state threaded through. *)
Fixpoint forEach {S : Type} (l : list Z) (body : Z -> S -> res S) (s : S) : res S :=
  match l with
  | [] => Ok s
  | x :: l' => let* s' := body x s in forEach l' body s'
  end.

(** The values of a loop counter that runs from [lo] while it is below [hi]. *)
Definition range (lo hi : Z) : list Z := seqZ lo (hi - lo).

Arguments range : simpl never.

(** ** Types and constants (App.tsx lines 9-21) *)

(** [interface Tile], lines 9-14. *)
Record Tile : Type := mkTile {
  isMine : bool;
  isRevealed : bool;
  isFlagged : bool;
  adjacentMines : nat
}.

(** [type Board = Tile[][]], read as the store of its tile objects. *)
Abbreviation Board := (list (list Tile)).

(** Lines 19-21. *)
Definition BOARD_SIZE : Z := 10.
Definition NUM_MINES : nat := 15.
Definition INITIAL_FLAGS : Z := 10.

(** Object spread with one field replaced, [{ ...tile, isMine: v }], and the
    content of a tile object after the field write [tile.isMine = v]. *)
Definition with_isMine (v : bool) (t : Tile) : Tile :=
  mkTile v (isRevealed t) (isFlagged t) (adjacentMines t).
Definition with_isRevealed (v : bool) (t : Tile) : Tile :=
  mkTile (isMine t) v (isFlagged t) (adjacentMines t).
Definition with_isFlagged (v : bool) (t : Tile) : Tile :=
  mkTile (isMine t) (isRevealed t) v (adjacentMines t).
Definition with_adjacentMines (v : nat) (t : Tile) : Tile :=
  mkTile (isMine t) (isRevealed t) (isFlagged t) v.

(** [a[i]]: [undefined] (here [None]) outside the array. *)
Definition index {A : Type} (l : list A) (i : Z) : option A :=
  if i <? 0 then None else l !! Z.to_nat i.

(** [board[row][col]] followed by a field read: a TypeError when the row or
    the tile is [undefined]. *)
Definition getTile (b : Board) (row col : Z) : res Tile :=
  match index b row with
  | None => Throw
  | Some r =>
      match index r col with
      | None => Throw
      | Some t => Ok t
      end
  end.

(** The store after the cell [(row, col)] received the content [t]: either
    [board[row][col] = {...}] or a field write to the object of that cell.
    Every use follows a successful read of the same cell. *)
Definition setTile (b : Board) (row col : Z) (t : Tile) : Board :=
  if (row <? 0) || (col <? 0) then b
  else alter (fun r => <[Z.to_nat col := t]> r) (Z.to_nat row) b.

(** [board.map(row => [...row])]: new row arrays over the same tiles. *)
Definition copyRows (b : Board) : Board := map (fun row => row) b.

(** The bounds test of lines 77 and 107. *)
Definition inGrid (row col : Z) : bool :=
  (0 <=? row) && (row <? BOARD_SIZE) && (0 <=? col) && (col <? BOARD_SIZE).

(** ** calculateAdjacentMines (lines 65-89) *)

(** The two inner loops over [i] and [j], lines 72-83. *)
Definition countAround (newBoard : Board) (row col : Z) : res nat :=
  forEach (range (-1) 2) (fun i count =>
    forEach (range (-1) 2) (fun j count =>
      if (i =? 0) && (j =? 0) then Ok count
      else
        let newRow := row + i in
        let newCol := col + j in
        if inGrid newRow newCol then
          let* t := getTile newBoard newRow newCol in
          if isMine t then Ok (S count) else Ok count
        else Ok count) count) 0%nat.

(** The loops over [row] and [col]; a mine keeps the count it had. *)
Definition calculateAdjacentMines (board : Board) : res Board :=
  let newBoard := copyRows board in
  forEach (range 0 BOARD_SIZE) (fun row newBoard =>
    forEach (range 0 BOARD_SIZE) (fun col newBoard =>
      let* t := getTile newBoard row col in
      if negb (isMine t) then
        let* count := countAround newBoard row col in
        Ok (setTile newBoard row col (with_adjacentMines count t))
      else Ok newBoard) newBoard) newBoard.

(** ** Mine placement (lines 26-63) *)

(** The random source is the list of the values that the successive calls
    [Math.floor(Math.random() * BOARD_SIZE)] return; the loop draws a row and
    then a column.  [createEmptyBoard] (lines 35-42) and [placeMines]
    (lines 51-60) run the same rejection loop; [skip] is the extra rejection
    test of [placeMines] (the initial click), constantly false in
    [createEmptyBoard]. *)
Fixpoint mineLoop (skip : Z -> Z -> bool) (numMines : nat) (rnd : list Z)
    (minesPlaced : nat) (newBoard : Board) {struct rnd} : res (Board * list Z) :=
  if (minesPlaced <? numMines)%nat then
    match rnd with
    | row :: col :: rnd' =>
        let* t := getTile newBoard row col in
        if negb (isMine t) && negb (skip row col)
        then mineLoop skip numMines rnd' (S minesPlaced)
               (setTile newBoard row col (with_isMine true t))
        else mineLoop skip numMines rnd' minesPlaced newBoard
    | _ => Diverge
    end
  else Ok (newBoard, rnd).

(** The tile literal of lines 27-32. *)
Definition emptyTile : Tile := mkTile false false false 0.

(** Despite its name the function places [NUM_MINES] mines (its comment:
    "Create a random board based on the initial amount of mines"). *)
Definition createEmptyBoard (rnd : list Z) : res (Board * list Z) :=
  let newBoard :=
    repeat (repeat emptyTile (Z.to_nat BOARD_SIZE)) (Z.to_nat BOARD_SIZE) in
  let* '(newBoard, rnd') := mineLoop (fun _ _ => false) NUM_MINES rnd 0%nat newBoard in
  let* b := calculateAdjacentMines newBoard in
  Ok (b, rnd').

(** Lines 47-63: the loop rejects the cell of the initial click as well. *)
Definition placeMines (rnd : list Z) (board : Board) (numMines : nat)
    (initialClickRow initialClickCol : Z) : res (Board * list Z) :=
  let newBoard := copyRows board in
  mineLoop (fun row col => (row =? initialClickRow) && (col =? initialClickCol))
    numMines rnd 0%nat newBoard.

(** ** revealTile (lines 91-115) *)

(** The state of the flood fill is the store of tile contents together with
    a ghost log: the cells at which line 99, [currentTile.isRevealed = true],
    was executed, latest first.  The recursive call of line 108 drops its
    return value; its writes reach the caller through the shared tiles, so
    the caller continues with the store the call leaves.  [fuel] bounds the
    depth of the recursion. *)
Abbreviation Visits := (list (Z * Z)).

(** The body of revealTile at recursion depth at most [fuel]. *)
Fixpoint revealTile_fuel (fuel : nat) (board : Board) (row col : Z) (vis : Visits)
    : res (Board * Visits) :=
  match fuel with
  | O => Diverge
  | S fuel' =>
      let newBoard := copyRows board in
      let* currentTile := getTile newBoard row col in
      if isRevealed currentTile || isFlagged currentTile then Ok (newBoard, vis)
      else
        let st := (setTile newBoard row col (with_isRevealed true currentTile),
                   (row, col) :: vis) in
        if (adjacentMines currentTile =? 0)%nat then
          forEach (range (-1) 2) (fun i st =>
            forEach (range (-1) 2) (fun j st =>
              if (i =? 0) && (j =? 0) then Ok st
              else
                let newRow := row + i in
                let newCol := col + j in
                if inGrid newRow newCol
                then revealTile_fuel fuel' (fst st) newRow newCol (snd st)
                else Ok st) st) st
        else Ok st
  end.

(** The tile is still covered. *)
Definition unrevealed (t : Tile) : bool := negb (isRevealed t).

(** [board.flat().filter(p).length]. *)
Definition countTiles (p : Tile -> bool) (b : Board) : nat :=
  length (List.filter p (concat b)).

(** Every level of the recursion below the first has revealed one more tile,
    so the depth never exceeds the number of unrevealed tiles plus one. *)
Definition revealTile (board : Board) (row col : Z) : res Board :=
  let* '(b, _) := revealTile_fuel (S (countTiles unrevealed board)) board row col [] in
  Ok b.

(** ** checkWinCondition and revealBoard (lines 117-124) *)

(** Lines 117-120. *)
Definition checkWinCondition (board : Board) : bool :=
  let numRevealed :=
    length (List.filter (fun tile => isRevealed tile && negb (isMine tile)) (concat board)) in
  Z.of_nat numRevealed =? BOARD_SIZE * BOARD_SIZE - Z.of_nat NUM_MINES.

(** Lines 122-124: a new tile object per cell, [isRevealed] overridden. *)
Definition revealBoard (board : Board) : Board :=
  map (fun row => map (fun tile => with_isRevealed true tile) row) board.

(** ** The component state and its handlers (lines 127-198) *)

(** The [useState] cells of lines 128-131; [shakeFlags] drives an animation
    only and is left out, as are the toasts. *)
Record Game : Type := mkGame {
  board : Board;
  isGameOver : bool;
  isGameWon : bool;
  flagsLeft : Z
}.

(** State setters.  A handler reads the state of the render it was created
    in ([g]) and queues updates; the queued updates are applied in order, so
    the last [setBoard] of a handler run is the board of the next render. *)
Definition setBoard (b : Board) (g : Game) : Game :=
  mkGame b (isGameOver g) (isGameWon g) (flagsLeft g).
Definition setIsGameOver (v : bool) (g : Game) : Game :=
  mkGame (board g) v (isGameWon g) (flagsLeft g).
Definition setIsGameWon (v : bool) (g : Game) : Game :=
  mkGame (board g) (isGameOver g) v (flagsLeft g).
Definition setFlagsLeft (f : Z -> Z) (g : Game) : Game :=
  mkGame (board g) (isGameOver g) (isGameWon g) (f (flagsLeft g)).

(** Lines 142-171.  [g] is the state of the render that created the
    handler, [next] the state that the queued updates build. *)
Definition handleTileClick (rnd : list Z) (g : Game) (row col : Z)
    : res (Game * list Z) :=
  if isGameOver g || isGameWon g then Ok (g, rnd)
  else
    let* '(next, rnd') :=
      (if forallb (fun tile => negb (isMine tile) && negb (isRevealed tile))
            (concat (board g))
       then
         let* '(newBoard, rnd') := placeMines rnd (board g) NUM_MINES row col in
         let* newBoard := calculateAdjacentMines newBoard in
         Ok (setBoard newBoard g, rnd')
       else Ok (g, rnd)) in
    (* line 151: the reveal runs on [board], the state of this render *)
    let* newBoard := revealTile (board g) row col in
    (* [board] and [newBoard] hold the same tile objects *)
    let board := newBoard in
    let* t := getTile newBoard row col in
    if isMine t then
      Ok (setBoard (revealBoard board) (setIsGameOver true next), rnd')
    else
      let next := setBoard newBoard next in
      if checkWinCondition newBoard then
        Ok (setBoard (revealBoard board) (setIsGameWon true next), rnd')
      else Ok (next, rnd').

(** Lines 173-191.  The flag is written to the tile object of the cell
    (lines 183 and 186), which the board of the render shares. *)
Definition handleTileRightClick (g : Game) (row col : Z) : res Game :=
  if isGameOver g || isGameWon g then Ok g
  else
    let newBoard := copyRows (board g) in
    let* currentTile := getTile newBoard row col in
    if negb (isRevealed currentTile) then
      if isFlagged currentTile then
        Ok (setBoard (setTile newBoard row col (with_isFlagged false currentTile))
              (setFlagsLeft (fun prev => prev + 1) g))
      else if flagsLeft g >? 0 then
        Ok (setBoard (setTile newBoard row col (with_isFlagged true currentTile))
              (setFlagsLeft (fun prev => prev - 1) g))
      else Ok (setBoard newBoard g)
    else Ok g.

(** Lines 193-198. *)
Definition handleReset (rnd : list Z) (g : Game) : res (Game * list Z) :=
  let* '(b, rnd') := createEmptyBoard rnd in
  Ok (setFlagsLeft (fun _ => INITIAL_FLAGS)
        (setIsGameWon false (setIsGameOver false (setBoard b g))), rnd').

(** The state of the first render: [useState(createEmptyBoard())]. *)
Definition initialGame (b : Board) : Game := mkGame b false false INITIAL_FLAGS.

(** ** What the component draws (lines 246-308) *)

(** A conditional class map, the object that lines 254-262 and 273-282
    pass to [cn]: class names with the conditions under which they apply.
    [cn] itself is imported from [@/lib/utils] and is not modelled; the
    model stops at its argument. *)
Abbreviation ClassMap := (list (String.string * bool)).

(** The class names of a map whose condition holds. *)
Definition enabled (m : ClassMap) : list String.string :=
  map fst (List.filter snd m).

(** A child of the tile's [motion.div], lines 267-292. *)
Inductive Node : Type :=
| NFalse
| NEmpty
| NBomb
| NCount (colours : ClassMap) (n : nat)
| NFlag.

(** The colour classes of a count, lines 273-282. *)
Definition countColours (adjacentMines : nat) : ClassMap :=
  [("text-blue-500"%string, (adjacentMines =? 1)%nat);
   ("text-green-500"%string, (adjacentMines =? 2)%nat);
   ("text-red-500"%string, (adjacentMines =? 3)%nat);
   ("text-purple-500"%string, (adjacentMines =? 4)%nat);
   ("text-orange-500"%string, (adjacentMines =? 5)%nat);
   ("text-yellow-500"%string, (adjacentMines =? 6)%nat);
   ("text-pink-500"%string, (adjacentMines =? 7)%nat);
   ("text-gray-500"%string, (adjacentMines =? 8)%nat)].

(** The two child expressions of a tile: [tile.isRevealed && (...)] and
    [!tile.isRevealed && tile.isFlagged && (<Flag/>)].  A conjunction whose
    left side is false has the value [false], which draws nothing, as the
    empty string of line 287 does. *)
Definition tileChildren (tile : Tile) : list Node :=
  [ if isRevealed tile then
      if isMine tile then NBomb
      else if (0 <? adjacentMines tile)%nat
           then NCount (countColours (adjacentMines tile)) (adjacentMines tile)
           else NEmpty
    else NFalse;
    if negb (isRevealed tile) && isFlagged tile then NFlag else NFalse ].

(** The class map of a tile, lines 254-262. *)
Definition tileClasses (tile : Tile) (isGameOver isGameWon : bool) : ClassMap :=
  [("bg-gray-300 dark:bg-gray-700"%string, negb (isRevealed tile) && negb (isFlagged tile));
   ("bg-gray-200 dark:bg-gray-800"%string, isRevealed tile);
   ("bg-yellow-400 dark:bg-yellow-600"%string, isFlagged tile);
   ("cursor-pointer"%string,
      negb (isRevealed tile) && negb (isFlagged tile) && negb isGameOver && negb isGameWon);
   ("cursor-not-allowed"%string,
      isRevealed tile || isFlagged tile || isGameOver || isGameWon)].

(** The colour of the flag counter, line 302. *)
Definition flagsLeftColour (flagsLeft : Z) : String.string :=
  if flagsLeft =? 0 then "#FFAAAA"%string else "white"%string.

(** * Specification vocabulary and concrete inputs *)

(** Two boards of the same shape whose tiles are related cell by cell. *)
Definition grid_rel (R : Tile -> Tile -> Prop) (b b' : Board) : Prop :=
  Forall2 (Forall2 R) b b'.

(** A well-formed board: [BOARD_SIZE] rows of [BOARD_SIZE] tiles. *)
Definition wf (b : Board) : Prop :=
  length b = Z.to_nat BOARD_SIZE /\
  Forall (fun r => length r = Z.to_nat BOARD_SIZE) b.

(** A tile after a flood fill is the tile before it, or that tile with
    [isRevealed] set, and then it was neither revealed nor flagged. *)
Definition reveal_step (t t' : Tile) : Prop :=
  t' = t \/
  (isRevealed t = false /\ isFlagged t = false /\ t' = with_isRevealed true t).

(** The cell was covered and unflagged in board [b]. *)
Definition coveredIn (b : Board) (rc : Z * Z) : Prop :=
  exists t, getTile b (fst rc) (snd rc) = Ok t /\
            isRevealed t = false /\ isFlagged t = false.

(** Every logged cell is revealed in the store, and no cell is logged twice. *)
Definition log_ok (b : Board) (vis : Visits) : Prop :=
  NoDup vis /\
  forall rc, In rc vis ->
    exists t, getTile b (fst rc) (snd rc) = Ok t /\ isRevealed t = true.

(** What one run of the flood fill guarantees about its final state. *)
Definition fill_post (b : Board) (vis : Visits) (st : Board * Visits) : Prop :=
  grid_rel reveal_step b (fst st) /\
  (log_ok b vis -> log_ok (fst st) (snd st)) /\
  (forall rc, In rc (snd st) -> In rc vis \/ coveredIn b rc).

(** The grid of line 27, before any mine is placed; every tile has the
    adjacency count 0. *)
Definition emptyBoard : Board :=
  repeat (repeat emptyTile (Z.to_nat BOARD_SIZE)) (Z.to_nat BOARD_SIZE).

(** A board with a flag on the corner cell. *)
Definition flaggedCorner : Board :=
  setTile emptyBoard 0 0 (with_isFlagged true emptyTile).

(** A mine that counts one neighbouring mine, on an otherwise empty board. *)
Definition loneMine : Board :=
  setTile emptyBoard 4 4 (mkTile true false false 1).

(** Revealed tiles that are not mines, counted row by row. *)
Fixpoint revealedSafeInRow (r : list Tile) : nat :=
  match r with
  | [] => 0
  | t :: r' =>
      ((if isRevealed t then if isMine t then 0 else 1 else 0) + revealedSafeInRow r')%nat
  end.

(** ... and over the whole board. *)
Fixpoint revealedSafe (b : Board) : nat :=
  match b with
  | [] => 0
  | r :: b' => (revealedSafeInRow r + revealedSafe b')%nat
  end.

(** Two tiles that differ at most in their flag and adjacency count. *)
Definition same_mine_reveal (t t' : Tile) : Prop :=
  isMine t' = isMine t /\ isRevealed t' = isRevealed t.

(** A row of revealed safe tiles with one flag set, and the same row
    without the flag. *)
Definition flaggedRow : Board :=
  [[mkTile false true true 0; mkTile true false true 0; mkTile false true false 2]].
Definition unflaggedRow : Board :=
  [[mkTile false true false 0; mkTile true false false 0; mkTile false true false 2]].

(** There is a tile at the cell and it is a mine. *)
Definition isMineAt (b : Board) (row col : Z) : bool :=
  match getTile b row col with
  | Ok t => isMine t
  | _ => false
  end.

(** The Moore neighbourhood of a cell. *)
Definition neighbours (row col : Z) : list (Z * Z) :=
  map (fun d => (row + fst d, col + snd d))
    [(-1, -1); (-1, 0); (-1, 1); (0, -1); (0, 1); (1, -1); (1, 0); (1, 1)].

(** Mines among the neighbours that lie on the board. *)
Definition mineNeighbours (b : Board) (row col : Z) : nat :=
  length (List.filter (fun rc => isMineAt b (fst rc) (snd rc)) (neighbours row col)).

(** Everything but the adjacency count is kept. *)
Definition same_but_adjacent (t t' : Tile) : Prop :=
  isMine t' = isMine t /\ isRevealed t' = isRevealed t /\ isFlagged t' = isFlagged t.

(** The body of the two outer loops, lines 70-85. *)
Definition calcCell (row col : Z) (newBoard : Board) : res Board :=
  let* t := getTile newBoard row col in
  if negb (isMine t) then
    let* count := countAround newBoard row col in
    Ok (setTile newBoard row col (with_adjacentMines count t))
  else Ok newBoard.

(** The count stored at a cell is the one of the mine layout of [b0]. *)
Definition adjacency_ok (b0 nb : Board) (row col : Z) : Prop :=
  forall t, getTile nb row col = Ok t -> isMine t = false ->
    adjacentMines t = mineNeighbours b0 row col.

(** A tile after the rejection loop: unchanged, or a tile that was not a
    mine and has become one. *)
Definition mine_step (t t' : Tile) : Prop :=
  t' = t \/ (isMine t = false /\ t' = with_isMine true t).

(** The states the component can be in: the first render, and then any
    sequence of clicks and right clicks on cells of the grid and of resets
    (the mount effect of lines 135-140 is a reset). *)
Inductive reachable : Game -> Prop :=
| reach_init (rnd rnd' : list Z) (b : Board) :
    createEmptyBoard rnd = Ok (b, rnd') -> reachable (initialGame b)
| reach_click (g g' : Game) (rnd rnd' : list Z) (row col : Z) :
    reachable g -> inGrid row col = true ->
    handleTileClick rnd g row col = Ok (g', rnd') -> reachable g'
| reach_flag (g g' : Game) (row col : Z) :
    reachable g -> inGrid row col = true ->
    handleTileRightClick g row col = Ok g' -> reachable g'
| reach_reset (g g' : Game) (rnd rnd' : list Z) :
    reachable g -> handleReset rnd g = Ok (g', rnd') -> reachable g'.

(** No tile of the board is both revealed and flagged. *)
Definition no_revealed_flag (b : Board) : Prop :=
  forall row col t, getTile b row col = Ok t ->
    ~ (isRevealed t = true /\ isFlagged t = true).

(** Neither lost nor won. *)
Definition inProgress (g : Game) : Prop :=
  isGameOver g = false /\ isGameWon g = false.

(** What holds in every reachable state: the board is well formed and
    carries [NUM_MINES] mines, the flags on the board and the flags left
    add up to [INITIAL_FLAGS], and while the game is in progress no tile is
    both revealed and flagged. *)
Definition game_inv (g : Game) : Prop :=
  wf (board g) /\
  countTiles isMine (board g) = NUM_MINES /\
  Z.of_nat (countTiles isFlagged (board g)) + flagsLeft g = INITIAL_FLAGS /\
  0 <= flagsLeft g /\
  (inProgress g -> no_revealed_flag (board g)).

(** The mine and the flag of a tile are kept. *)
Definition keeps_mine_flag (t t' : Tile) : Prop :=
  isMine t' = isMine t /\ isFlagged t' = isFlagged t.

(** Fifteen draws of a row and a column, the first one the corner. *)
Definition sampleDraws : list Z :=
  [0; 0;  3; 4;  9; 9;  5; 5;  1; 7;  2; 2;  6; 1;  7; 8;
   8; 3;  4; 6;  9; 0;  0; 9;  3; 3;  5; 8;  7; 2].


(** The board, respectively the game, of an outcome. *)
Definition boardOf (r : res (Board * list Z)) : Board :=
  match r with
  | Ok (b, _) => b
  | _ => []
  end.

Definition gameOf (r : res (Game * list Z)) (g : Game) : Game :=
  match r with
  | Ok (g', _) => g'
  | _ => g
  end.

(** The board that createEmptyBoard builds from the sample draws, and the
    first render of a game on it. *)
Definition sampleBoard : Board :=
  Eval vm_compute in boardOf (createEmptyBoard sampleDraws).

Definition sampleGame : Game := initialGame sampleBoard.

(** Right clicks on a list of cells, one after the other. *)
Fixpoint rightClicks (cells : list (Z * Z)) (g : Game) : res Game :=
  match cells with
  | [] => Ok g
  | (row, col) :: cells' =>
      let* g' := handleTileRightClick g row col in rightClicks cells' g'
  end.

(** The value of an outcome, a default when there is none. *)
Definition okOr {A : Type} (r : res A) (d : A) : A :=
  match r with
  | Ok a => a
  | _ => d
  end.

(** The sample game with a flag on the safe cell [(0, 1)]. *)
Definition flaggedGame : Game :=
  Eval vm_compute in okOr (handleTileRightClick sampleGame 0 1) sampleGame.

(** ... and then a click on the mine of the corner. *)
Definition lostGame : Game :=
  Eval vm_compute in gameOf (handleTileClick [] flaggedGame 0 0) flaggedGame.

(** The sample game with a flag on the mine of the corner. *)
Definition flaggedMineGame : Game :=
  Eval vm_compute in okOr (handleTileRightClick sampleGame 0 0) sampleGame.

(** The sample game with the ten cells of the first row flagged. *)
Definition flagsSpentGame : Game :=
  Eval vm_compute in
    okOr (rightClicks (map (fun col => (0, col)) (range 0 BOARD_SIZE)) sampleGame)
      sampleGame.

(** Draws for placeMines with the corner excluded: the corner is drawn
    first and rejected. *)
Definition pristineDraws : list Z := sampleDraws ++ [1; 1].

(** The board that lines 146-148 pass to [setBoard] on an empty board. *)
Definition minedBoard : Board :=
  Eval vm_compute in
    boardOf (let* '(nb, rnd') := placeMines pristineDraws emptyBoard NUM_MINES 0 0 in
             let* nb := calculateAdjacentMines nb in Ok (nb, rnd')).

(** Two mines side by side on the diagonal of the corner. *)
Definition twoMines : Board :=
  setTile (setTile emptyBoard 0 0 (mkTile true false false 0))
    1 1 (mkTile true false false 0).

(** The tile of the cell is revealed or flagged: the flood fill stops
    there. *)
Definition settledAt (b : Board) (row col : Z) : Prop :=
  exists u, getTile b row col = Ok u /\ isRevealed u || isFlagged u = true.

(** The random draws that select a list of cells, a row and a column each. *)
Definition drawsOf (cells : list (Z * Z)) : list Z :=
  flat_map (fun rc => [fst rc; snd rc]) cells.

(** ** Tile objects on a heap

    The same flood fill with the tile objects made explicit: a board is a
    grid of references, the heap gives the content of every object, and
    the field write of line 99 updates the heap.  The recursive call gets
    the row copy [newBoard] and its return value is dropped, as in the
    source.  [revealTileH_sound] below shows that this is the store model
    above whenever every cell owns its object. *)
Abbreviation Heap := (nat -> Tile).
Abbreviation RefBoard := (list (list nat)).

(** The heap after the object [l] received the content [t]. *)
Definition write (h : Heap) (l : nat) (t : Tile) : Heap :=
  fun l' => if Nat.eqb l' l then t else h l'.

(** [board[row][col]], the reference stored in the cell. *)
Definition getRef (b : RefBoard) (row col : Z) : res nat :=
  match index b row with
  | None => Throw
  | Some r =>
      match index r col with
      | None => Throw
      | Some l => Ok l
      end
  end.

(** The contents of the tiles that a board refers to. *)
Definition contents (h : Heap) (b : RefBoard) : Board := map (map h) b.

(** revealTile, lines 91-115, on references and a heap. *)
Fixpoint revealTileH (fuel : nat) (board : RefBoard) (row col : Z)
    (st : Heap * Visits) : res (RefBoard * (Heap * Visits)) :=
  match fuel with
  | O => Diverge
  | S fuel' =>
      let newBoard := map (fun row => row) board in
      let* currentTile := getRef newBoard row col in
      if isRevealed (fst st currentTile) || isFlagged (fst st currentTile)
      then Ok (newBoard, st)
      else
        let st := (write (fst st) currentTile (with_isRevealed true (fst st currentTile)),
                   (row, col) :: snd st) in
        if (adjacentMines (fst st currentTile) =? 0)%nat then
          let* st' :=
            forEach (range (-1) 2) (fun i st =>
              forEach (range (-1) 2) (fun j st =>
                if (i =? 0) && (j =? 0) then Ok st
                else
                  let newRow := row + i in
                  let newCol := col + j in
                  if inGrid newRow newCol
                  then let* r := revealTileH fuel' newBoard newRow newCol st in
                       Ok (snd r)
                  else Ok st) st) st in
          Ok (newBoard, st')
        else Ok (newBoard, st)
  end.

(** Outcomes that agree, the values they carry related by [R]. *)
Definition res_rel {A B : Type} (R : A -> B -> Prop) (x : res A) (y : res B) : Prop :=
  match x, y with
  | Ok a, Ok b => R a b
  | Throw, Throw => True
  | Diverge, Diverge => True
  | _, _ => False
  end.

(** A heap state and a store state that show the same tiles. *)
Definition shows (refs : RefBoard) (hs : Heap * Visits) (st : Board * Visits) : Prop :=
  fst st = contents (fst hs) refs /\ snd st = snd hs.

(** ** Invariants of the play and relations between tiles *)

(** Every tile that is not a mine carries the number of mines around it. *)
Definition countsCorrect (b : Board) : Prop :=
  forall row col t, getTile b row col = Ok t -> isMine t = false ->
    adjacentMines t = mineNeighbours b row col.

(** A tile after a fill that started on a safe tile: the tile it was, or
    that tile revealed, and then it is no mine. *)
Definition safe_step (t t' : Tile) : Prop :=
  t' = t \/ (isMine t = false /\ t' = with_isRevealed true t).

(** The mine and the adjacency count of a tile are kept. *)
Definition keeps_layout (t t' : Tile) : Prop :=
  isMine t' = isMine t /\ adjacentMines t' = adjacentMines t.

(** A tile after the adjacency pass: a mine is the tile it was, any other
    tile differs at most in its count. *)
Definition calc_step (t t' : Tile) : Prop :=
  (isMine t = true /\ t' = t) \/
  (isMine t = false /\ exists n, t' = with_adjacentMines n t).

(** No mine of the board is revealed. *)
Definition no_mine_revealed (b : Board) : Prop :=
  forall row col t, getTile b row col = Ok t -> isMine t = true ->
    isRevealed t = false.

(** Every tile of the board is revealed. *)
Definition all_revealed (b : Board) : Prop :=
  forall row col t, getTile b row col = Ok t -> isRevealed t = true.

(** The second invariant of the reachable states: the adjacency counts are
    those of the mines, a game is not both lost and won, a game in progress
    shows no mine and has not met the win condition, and a finished game
    shows every tile. *)
Definition play_inv (g : Game) : Prop :=
  countsCorrect (board g) /\
  (isGameOver g = true -> isGameWon g = false) /\
  (inProgress g ->
     no_mine_revealed (board g) /\ checkWinCondition (board g) = false) /\
  (isGameOver g = true \/ isGameWon g = true -> all_revealed (board g)).

(** Everything but the flag is kept. *)
Definition same_but_flag (t t' : Tile) : Prop :=
  isMine t' = isMine t /\ isRevealed t' = isRevealed t /\
  adjacentMines t' = adjacentMines t.

(** * Verification *)

(** ** Outcomes and loops *)

Lemma bind_Ok {A B : Type} (m : res A) (k : A -> res B) (b : B) :
  bind m k = Ok b -> exists a, m = Ok a /\ k a = Ok b.
Proof. destruct m; simpl; intros H; try discriminate. eauto. Qed.

Lemma bind_not_Diverge {A B : Type} (m : res A) (k : A -> res B) :
  m <> Diverge -> (forall a, m = Ok a -> k a <> Diverge) -> bind m k <> Diverge.
Proof. destruct m; simpl; auto. Qed.

(** Partial correctness of a loop: an invariant kept by every iteration
    that returns holds when the loop returns. *)
Lemma forEach_inv {S : Type} (I : S -> Prop) (l : list Z) (body : Z -> S -> res S) :
  (forall x s s', In x l -> I s -> body x s = Ok s' -> I s') ->
  forall s s', I s -> forEach l body s = Ok s' -> I s'.
Proof.
  induction l as [|x l IH]; simpl; intros Hbody s s' Hs Hrun.
  - injection Hrun as <-. exact Hs.
  - apply bind_Ok in Hrun as (s1 & H1 & H2).
    apply (IH (fun y t t' Hy => Hbody y t t' (or_intror Hy)) s1 s'); auto.
    apply (Hbody x s s1); auto.
Qed.

(** Total correctness: every iteration returns and keeps the invariant. *)
Lemma forEach_total {S : Type} (I : S -> Prop) (l : list Z) (body : Z -> S -> res S) :
  (forall x s, In x l -> I s -> exists s', body x s = Ok s' /\ I s') ->
  forall s, I s -> exists s', forEach l body s = Ok s' /\ I s'.
Proof.
  induction l as [|x l IH]; simpl; intros Hbody s Hs.
  - eauto.
  - destruct (Hbody x s (or_introl eq_refl) Hs) as (s1 & H1 & HI1).
    rewrite H1. simpl. apply IH; auto.
Qed.

(** The same with an invariant that knows which iterations are done. *)
Lemma forEach_total_prefix {S : Type} (I : list Z -> S -> Prop) (body : Z -> S -> res S) :
  forall (l pre : list Z) (s : S),
  (forall done x rest t, pre ++ l = done ++ x :: rest -> I done t ->
      exists t', body x t = Ok t' /\ I (done ++ [x]) t') ->
  I pre s -> exists s', forEach l body s = Ok s' /\ I (pre ++ l) s'.
Proof.
  induction l as [|x l IH]; simpl; intros pre s Hbody Hs.
  - rewrite app_nil_r. eauto.
  - destruct (Hbody pre x l s eq_refl Hs) as (s1 & H1 & HI1).
    rewrite H1. simpl.
    replace (pre ++ x :: l) with ((pre ++ [x]) ++ l) in * by (rewrite <- app_assoc; reflexivity).
    apply IH; auto.
Qed.

(** A loop whose iterations never run out of fuel does not either. *)
Lemma forEach_not_Diverge {S : Type} (I : S -> Prop) (l : list Z) (body : Z -> S -> res S) :
  (forall x s, In x l -> I s ->
      body x s <> Diverge /\ forall s', body x s = Ok s' -> I s') ->
  forall s, I s -> forEach l body s <> Diverge.
Proof.
  induction l as [|x l IH]; simpl; intros Hbody s Hs.
  - discriminate.
  - destruct (Hbody x s (or_introl eq_refl) Hs) as [Hnd Hnext].
    apply bind_not_Diverge; [exact Hnd|].
    intros s1 H1. apply IH; auto.
Qed.

Lemma forEach_ext {S : Type} (l : list Z) (f g : Z -> S -> res S) :
  (forall x s, In x l -> f x s = g x s) ->
  forall s, forEach l f s = forEach l g s.
Proof.
  induction l as [|x l IH]; simpl; intros Hfg s; auto.
  rewrite Hfg by auto. destruct (g x s); simpl; auto.
Qed.

Lemma In_range (lo hi x : Z) : In x (range lo hi) <-> lo <= x < hi.
Proof.
  unfold range. rewrite <- list_elem_of_In, elem_of_seqZ. lia.
Qed.

(** A loop in which every iteration establishes its own goal [Q x] and
    keeps the goals already reached reaches all of them. *)
Lemma forEach_establish {S : Type} (I : S -> Prop) (Q : Z -> S -> Prop)
    (l : list Z) (body : Z -> S -> res S) :
  (forall x s s', In x l -> I s -> body x s = Ok s' ->
     I s' /\ Q x s' /\ forall y, Q y s -> Q y s') ->
  forall s s', I s -> forEach l body s = Ok s' ->
  I s' /\ forall x, In x l -> Q x s'.
Proof.
  induction l as [|x l IH]; simpl; intros Hbody s s' Hs Hrun.
  - injection Hrun as <-. split; [exact Hs|]. intros x [].
  - apply bind_Ok in Hrun as (s1 & H1 & H2).
    destruct (Hbody x s s1 (or_introl eq_refl) Hs H1) as (Hs1 & Hx & _).
    assert (forall y t t', In y l -> I t -> body y t = Ok t' ->
              I t' /\ Q y t' /\ forall z, Q z t -> Q z t') as Hbody'.
    { intros y t t' Hy. apply Hbody. right. exact Hy. }
    destruct (IH Hbody' s1 s' Hs1 H2) as (Hs' & Hall).
    split; [exact Hs'|]. intros y [<-|Hy]; [|apply Hall; exact Hy].
    apply (forEach_inv (fun t => I t /\ Q x t) l body) with (s := s1) (s' := s');
      [|split; assumption|exact H2].
    intros z t t' Hz [Ht Hqt] Hrun.
    destruct (Hbody' z t t' Hz Ht Hrun) as (Ht' & _ & Hkeep). auto.
Qed.

(** ** Cells of the store *)

Lemma copyRows_id (b : Board) : copyRows b = b.
Proof. unfold copyRows. apply map_id. Qed.

Lemma index_Some {A : Type} (l : list A) (i : Z) (x : A) :
  index l i = Some x <-> 0 <= i /\ l !! Z.to_nat i = Some x.
Proof.
  unfold index. destruct (Z.ltb_spec i 0); split.
  - discriminate.
  - intros [? _]; lia.
  - intros H0; split; [lia | exact H0].
  - intros [_ H0]; exact H0.
Qed.

Lemma getTile_Ok (b : Board) (row col : Z) (t : Tile) :
  getTile b row col = Ok t <->
  0 <= row /\ 0 <= col /\
  exists r, b !! Z.to_nat row = Some r /\ r !! Z.to_nat col = Some t.
Proof.
  unfold getTile. split.
  - destruct (index b row) as [r|] eqn:Hr; try discriminate.
    destruct (index r col) as [t'|] eqn:Ht; try discriminate.
    intros [= <-]. apply index_Some in Hr as [? ?], Ht as [? ?]. eauto 6.
  - intros (Hr & Hc & r & H1 & H2).
    assert (index b row = Some r) as -> by (apply index_Some; auto).
    assert (index r col = Some t) as -> by (apply index_Some; auto).
    reflexivity.
Qed.

Lemma getTile_not_Diverge (b : Board) (row col : Z) : getTile b row col <> Diverge.
Proof.
  unfold getTile. destruct (index b row) as [r|]; try discriminate.
  destruct (index r col); discriminate.
Qed.

Lemma getTile_setTile_same (b : Board) (row col : Z) (t t' : Tile) :
  getTile b row col = Ok t -> getTile (setTile b row col t') row col = Ok t'.
Proof.
  rewrite !getTile_Ok. intros (Hr & Hc & r & H1 & H2).
  split; [auto|split; [auto|]].
  unfold setTile.
  replace ((row <? 0) || (col <? 0)) with false by (symmetry; apply orb_false_iff; lia).
  exists (<[Z.to_nat col := t']> r). split.
  - rewrite list_lookup_alter_eq, H1. reflexivity.
  - apply list_lookup_insert_eq. eapply lookup_lt_Some; eauto.
Qed.

Lemma getTile_setTile_other (b : Board) (row col row' col' : Z) (t' : Tile) :
  row <> row' \/ col <> col' ->
  getTile (setTile b row col t') row' col' = getTile b row' col'.
Proof.
  intros Hne. unfold setTile.
  destruct ((row <? 0) || (col <? 0)) eqn:Hneg; [reflexivity|].
  apply orb_false_iff in Hneg as [Hr Hc].
  unfold getTile, index.
  destruct (Z.ltb_spec row' 0); [reflexivity|].
  destruct (decide (Z.to_nat row = Z.to_nat row')) as [Heq|Hrow].
  - rewrite Heq, list_lookup_alter_eq.
    destruct (b !! Z.to_nat row') as [r|]; simpl; [|reflexivity].
    destruct (Z.ltb_spec col' 0); [reflexivity|].
    rewrite list_lookup_insert_ne; [reflexivity|]. lia.
  - rewrite list_lookup_alter_ne by auto. reflexivity.
Qed.

Lemma getTile_setTile (b : Board) (row col row' col' : Z) (t t' u : Tile) :
  getTile b row col = Ok t ->
  getTile (setTile b row col t') row' col' = Ok u ->
  (row' = row /\ col' = col /\ u = t') \/
  ((row <> row' \/ col <> col') /\ getTile b row' col' = Ok u).
Proof.
  intros Hget Hset.
  destruct (decide (row = row')) as [<-|Hr]; [destruct (decide (col = col')) as [<-|Hc]|].
  - left. rewrite (getTile_setTile_same _ _ _ _ _ Hget) in Hset.
    injection Hset as <-. auto.
  - right. rewrite getTile_setTile_other in Hset by auto. auto.
  - right. rewrite getTile_setTile_other in Hset by auto. auto.
Qed.

(** ** Boards related cell by cell *)

Section GridRel.
Variable R : Tile -> Tile -> Prop.

Lemma grid_rel_refl (b : Board) : (forall t, R t t) -> grid_rel R b b.
Proof.
  intros Hrefl. unfold grid_rel.
  induction b as [|r b IH]; constructor; auto.
  induction r; constructor; auto.
Qed.

Lemma grid_rel_trans (a b c : Board) :
  (forall x y z, R x y -> R y z -> R x z) ->
  grid_rel R a b -> grid_rel R b c -> grid_rel R a c.
Proof.
  intros Htrans Hab Hbc. unfold grid_rel in *.
  eapply Forall2_trans; [|exact Hab|exact Hbc].
  intros r1 r2 r3 H12 H23. eapply Forall2_trans; eauto.
Qed.

Lemma grid_rel_setTile (b : Board) (row col : Z) (t t' : Tile) :
  (forall x, R x x) -> getTile b row col = Ok t -> R t t' ->
  grid_rel R b (setTile b row col t').
Proof.
  intros Hrefl Hget Ht.
  apply getTile_Ok in Hget as (Hr & Hc & r & H1 & H2).
  unfold setTile.
  replace ((row <? 0) || (col <? 0)) with false by (symmetry; apply orb_false_iff; lia).
  apply Forall2_alter_r; [apply grid_rel_refl; auto|].
  intros x y Hx Hy Hxy.
  rewrite <- (list_insert_id x (Z.to_nat col) t) at 1.
  - apply Forall2_insert; auto.
  - congruence.
Qed.

Lemma grid_rel_getTile_l (b b' : Board) (row col : Z) (t : Tile) :
  grid_rel R b b' -> getTile b row col = Ok t ->
  exists t', getTile b' row col = Ok t' /\ R t t'.
Proof.
  intros Hrel Hget.
  apply getTile_Ok in Hget as (Hr & Hc & r & H1 & H2).
  destruct (Forall2_lookup_l _ _ _ _ _ Hrel H1) as (r' & H1' & Hrr).
  destruct (Forall2_lookup_l _ _ _ _ _ Hrr H2) as (t' & H2' & Htt).
  exists t'. split; [|exact Htt]. apply getTile_Ok. eauto 6.
Qed.

Lemma grid_rel_getTile_r (b b' : Board) (row col : Z) (t' : Tile) :
  grid_rel R b b' -> getTile b' row col = Ok t' ->
  exists t, getTile b row col = Ok t /\ R t t'.
Proof.
  intros Hrel Hget.
  apply getTile_Ok in Hget as (Hr & Hc & r' & H1 & H2).
  destruct (Forall2_lookup_r _ _ _ _ _ Hrel H1) as (r & H1' & Hrr).
  destruct (Forall2_lookup_r _ _ _ _ _ Hrr H2) as (t & H2' & Htt).
  exists t. split; [|exact Htt]. apply getTile_Ok. eauto 6.
Qed.

Lemma grid_rel_concat (b b' : Board) :
  grid_rel R b b' -> Forall2 R (concat b) (concat b').
Proof.
  induction 1; simpl; [constructor|]. apply Forall2_app; auto.
Qed.
End GridRel.

Lemma grid_rel_impl (R Q : Tile -> Tile -> Prop) (b b' : Board) :
  (forall x y, R x y -> Q x y) -> grid_rel R b b' -> grid_rel Q b b'.
Proof.
  intros Himpl Hrel. unfold grid_rel in *.
  eapply Forall2_impl; [exact Hrel|].
  intros r r' Hr. eapply Forall2_impl; eauto.
Qed.

(** ** Counting tiles *)

Lemma count_rel_le (R : Tile -> Tile -> Prop) (p q : Tile -> bool) (l l' : list Tile) :
  (forall x y, R x y -> q y = true -> p x = true) ->
  Forall2 R l l' ->
  (length (List.filter q l') <= length (List.filter p l))%nat.
Proof.
  intros Hpq. induction 1 as [|x y l l' Hxy _ IH]; simpl; [lia|].
  destruct (q y) eqn:Hq.
  - rewrite (Hpq x y Hxy Hq). simpl. lia.
  - destruct (p x); simpl; lia.
Qed.

Lemma count_rel_eq (R : Tile -> Tile -> Prop) (p q : Tile -> bool) (l l' : list Tile) :
  (forall x y, R x y -> p x = q y) ->
  Forall2 R l l' ->
  length (List.filter p l) = length (List.filter q l').
Proof.
  intros Hpq. induction 1 as [|x y l l' Hxy _ IH]; simpl; [reflexivity|].
  rewrite (Hpq x y Hxy). destruct (q y); simpl; lia.
Qed.

Lemma countTiles_rel_eq (R : Tile -> Tile -> Prop) (p : Tile -> bool) (b b' : Board) :
  (forall x y, R x y -> p x = p y) -> grid_rel R b b' ->
  countTiles p b = countTiles p b'.
Proof.
  intros Hp Hrel. unfold countTiles.
  eapply count_rel_eq; [exact Hp|]. apply grid_rel_concat, Hrel.
Qed.

Lemma countTiles_rel_le (R : Tile -> Tile -> Prop) (p : Tile -> bool) (b b' : Board) :
  (forall x y, R x y -> p y = true -> p x = true) -> grid_rel R b b' ->
  (countTiles p b' <= countTiles p b)%nat.
Proof.
  intros Hp Hrel. unfold countTiles.
  eapply count_rel_le; [exact Hp|]. apply grid_rel_concat, Hrel.
Qed.

Lemma count_insert (p : Tile -> bool) (l : list Tile) (i : nat) (t t' : Tile) :
  l !! i = Some t ->
  (length (List.filter p (<[i:=t']> l)) + Nat.b2n (p t) =
   length (List.filter p l) + Nat.b2n (p t'))%nat.
Proof.
  revert i. induction l as [|x l IH]; intros [|i] Hl; try discriminate.
  - injection Hl as ->. simpl. destruct (p t), (p t'); simpl; lia.
  - simpl in Hl. specialize (IH i Hl). simpl.
    change (list_insert i t' l) with (<[i:=t']> l).
    destruct (p x); simpl; lia.
Qed.

Lemma count_alter_row (p : Tile -> bool) (f : list Tile -> list Tile)
    (b : Board) (i : nat) (r : list Tile) :
  b !! i = Some r ->
  (length (List.filter p (concat (alter f i b))) + length (List.filter p r) =
   length (List.filter p (concat b)) + length (List.filter p (f r)))%nat.
Proof.
  revert i. induction b as [|x b IH]; intros [|i] Hb; try discriminate.
  - injection Hb as ->. simpl. rewrite !List.filter_app, !length_app. lia.
  - simpl in Hb. specialize (IH i Hb). simpl.
    change (list_alter f i b) with (alter f i b).
    rewrite !List.filter_app, !length_app. lia.
Qed.

(** Replacing the content of one cell moves a count by that cell alone. *)
Lemma countTiles_setTile (p : Tile -> bool) (b : Board) (row col : Z) (t t' : Tile) :
  getTile b row col = Ok t ->
  (countTiles p (setTile b row col t') + Nat.b2n (p t) =
   countTiles p b + Nat.b2n (p t'))%nat.
Proof.
  intros Hget. apply getTile_Ok in Hget as (Hr & Hc & r & H1 & H2).
  unfold setTile, countTiles.
  replace ((row <? 0) || (col <? 0)) with false by (symmetry; apply orb_false_iff; lia).
  pose proof (count_alter_row p (fun r => <[Z.to_nat col := t']> r) b _ r H1) as Ha.
  pose proof (count_insert p r _ t t' H2) as Hi.
  simpl in Ha. lia.
Qed.

(** ** Well-formed boards: [BOARD_SIZE] rows of [BOARD_SIZE] tiles *)

Lemma inGrid_spec (row col : Z) :
  inGrid row col = true <-> 0 <= row < BOARD_SIZE /\ 0 <= col < BOARD_SIZE.
Proof.
  unfold inGrid. rewrite !andb_true_iff, !Z.leb_le, !Z.ltb_lt. tauto.
Qed.

Lemma wf_getTile (b : Board) (row col : Z) :
  wf b -> inGrid row col = true -> exists t, getTile b row col = Ok t.
Proof.
  intros [Hlen Hrows] Hin. apply inGrid_spec in Hin as [Hr Hc].
  unfold BOARD_SIZE in *.
  destruct (lookup_lt_is_Some_2 b (Z.to_nat row)) as [r Hrow]; [lia|].
  assert (length r = Z.to_nat BOARD_SIZE) as Hlr.
  { rewrite Forall_forall in Hrows. apply Hrows.
    apply list_elem_of_lookup. eauto. }
  destruct (lookup_lt_is_Some_2 r (Z.to_nat col)) as [t Ht];
    [unfold BOARD_SIZE in *; lia|].
  exists t. apply getTile_Ok. split; [lia|]. split; [lia|]. eauto.
Qed.

Lemma getTile_wf_inGrid (b : Board) (row col : Z) (t : Tile) :
  wf b -> getTile b row col = Ok t -> inGrid row col = true.
Proof.
  intros [Hlen Hrows] Hget.
  apply getTile_Ok in Hget as (Hr & Hc & r & H1 & H2).
  assert (length r = Z.to_nat BOARD_SIZE) as Hlr.
  { rewrite Forall_forall in Hrows. apply Hrows.
    apply list_elem_of_lookup. eauto. }
  apply lookup_lt_Some in H1, H2.
  apply inGrid_spec. unfold BOARD_SIZE in *. lia.
Qed.

Lemma wf_grid_rel (R : Tile -> Tile -> Prop) (b b' : Board) :
  grid_rel R b b' -> wf b -> wf b'.
Proof.
  intros Hrel [Hlen Hrows]. split.
  - rewrite <- (Forall2_length _ _ _ Hrel). exact Hlen.
  - clear Hlen. induction Hrel as [|r r' b b' Hr _ IH]; constructor.
    + rewrite <- (Forall2_length _ _ _ Hr). inversion Hrows; auto.
    + apply IH. inversion Hrows; auto.
Qed.

(** ** revealTile: what a run may change *)

Lemma reveal_step_refl (t : Tile) : reveal_step t t.
Proof. left. reflexivity. Qed.

Lemma reveal_step_trans (x y z : Tile) :
  reveal_step x y -> reveal_step y z -> reveal_step x z.
Proof.
  intros [->|(Hr & Hf & ->)] [->|(Hr' & Hf' & ->)]; unfold reveal_step; auto;
    simpl in Hr'; discriminate.
Qed.

Lemma coveredIn_back (b b1 : Board) (rc : Z * Z) :
  grid_rel reveal_step b b1 -> coveredIn b1 rc -> coveredIn b rc.
Proof.
  intros Hrel (t1 & Hget & Hr & Hf).
  destruct (grid_rel_getTile_r _ _ _ _ _ _ Hrel Hget) as (t & Hget0 & Hstep).
  exists t. split; [exact Hget0|].
  destruct Hstep as [->|(? & ? & ->)]; [auto | simpl in Hr; discriminate].
Qed.

Lemma fill_post_refl (b : Board) (vis : Visits) : fill_post b vis (b, vis).
Proof.
  split; [apply grid_rel_refl, reveal_step_refl|]. split; simpl; auto.
Qed.

Lemma fill_post_trans (b : Board) (vis : Visits) (st1 st2 : Board * Visits) :
  fill_post b vis st1 -> fill_post (fst st1) (snd st1) st2 -> fill_post b vis st2.
Proof.
  intros (Hrel1 & Hlog1 & Hin1) (Hrel2 & Hlog2 & Hin2).
  split; [|split].
  - eapply grid_rel_trans; eauto using reveal_step_trans.
  - auto.
  - intros rc Hrc. destruct (Hin2 rc Hrc) as [H|H]; auto.
    right. eapply coveredIn_back; eauto.
Qed.

Lemma log_ok_setTile (b : Board) (vis : Visits) (row col : Z) (t : Tile) :
  getTile b row col = Ok t -> isRevealed t = false ->
  log_ok b vis ->
  log_ok (setTile b row col (with_isRevealed true t)) ((row, col) :: vis).
Proof.
  intros Hget Hr [Hnd Hlog]. split.
  - constructor; [|exact Hnd]. intros Hin. apply list_elem_of_In in Hin.
    destruct (Hlog _ Hin) as (t0 & Hget0 & Hr0). simpl in Hget0. congruence.
  - intros [r c] [[= <- <-]|Hin]; simpl.
    + exists (with_isRevealed true t). split; [|reflexivity].
      eapply getTile_setTile_same; eauto.
    + destruct (Hlog _ Hin) as (t0 & Hget0 & Hr0). simpl in Hget0.
      exists t0. split; [|exact Hr0].
      rewrite getTile_setTile_other; [exact Hget0|].
      destruct (decide (row = r)) as [->|]; [|auto].
      destruct (decide (col = c)) as [->|]; [|auto].
      congruence.
Qed.

Lemma revealTile_fuel_S (fuel : nat) (b : Board) (row col : Z) (vis : Visits) :
  revealTile_fuel (S fuel) b row col vis =
  let* currentTile := getTile b row col in
  if isRevealed currentTile || isFlagged currentTile then Ok (b, vis)
  else
    let st := (setTile b row col (with_isRevealed true currentTile), (row, col) :: vis) in
    if (adjacentMines currentTile =? 0)%nat then
      forEach (range (-1) 2) (fun i st =>
        forEach (range (-1) 2) (fun j st =>
          if (i =? 0) && (j =? 0) then Ok st
          else if inGrid (row + i) (col + j)
               then revealTile_fuel fuel (fst st) (row + i) (col + j) (snd st)
               else Ok st) st) st
    else Ok st.
Proof. simpl. rewrite copyRows_id. reflexivity. Qed.

Lemma revealTile_fuel_post (fuel : nat) :
  forall (b : Board) (row col : Z) (vis : Visits) (st : Board * Visits),
  revealTile_fuel fuel b row col vis = Ok st -> fill_post b vis st.
Proof.
  induction fuel as [|fuel IH]; intros b row col vis st Hrun; [discriminate|].
  rewrite revealTile_fuel_S in Hrun.
  apply bind_Ok in Hrun as (t & Hget & Hrun).
  destruct (isRevealed t || isFlagged t) eqn:Hguard.
  { injection Hrun as <-. apply fill_post_refl. }
  apply orb_false_iff in Hguard as [Hr Hf].
  set (st0 := (setTile b row col (with_isRevealed true t), (row, col) :: vis)) in *.
  assert (fill_post b vis st0) as H0.
  { split; [|split]; simpl.
    - eapply grid_rel_setTile; eauto using reveal_step_refl.
      right. auto.
    - apply log_ok_setTile; auto.
    - intros rc [<-|Hin]; auto. right. exists t. auto. }
  cbv zeta in Hrun. fold st0 in Hrun.
  destruct (adjacentMines t =? 0)%nat; [|injection Hrun as <-; exact H0].
  revert Hrun. apply forEach_inv; [|exact H0].
  intros i s s' _ Hs. apply forEach_inv; [|exact Hs].
  intros j u u' _ Hu Hbody.
  destruct ((i =? 0) && (j =? 0)); [injection Hbody as <-; exact Hu|].
  destruct (inGrid (row + i) (col + j)); [|injection Hbody as <-; exact Hu].
  eapply fill_post_trans; [exact Hu|]. eapply IH; eauto.
Qed.

(** ** revealTile: termination *)

Lemma forEach_mono {S : Type} (l : list Z) (f g : Z -> S -> res S) :
  (forall x s s', f x s = Ok s' -> g x s = Ok s') ->
  forall s s', forEach l f s = Ok s' -> forEach l g s = Ok s'.
Proof.
  intros Hfg. induction l as [|x l IH]; simpl; intros s s' Hrun; [exact Hrun|].
  apply bind_Ok in Hrun as (s1 & H1 & H2).
  rewrite (Hfg _ _ _ H1). simpl. auto.
Qed.

(** More fuel never changes a result. *)
Lemma revealTile_fuel_mono (fuel : nat) :
  forall (fuel' : nat) (b : Board) (row col : Z) (vis : Visits) (st : Board * Visits),
  (fuel <= fuel')%nat ->
  revealTile_fuel fuel b row col vis = Ok st ->
  revealTile_fuel fuel' b row col vis = Ok st.
Proof.
  induction fuel as [|fuel IH]; intros fuel' b row col vis st Hle Hrun; [discriminate|].
  destruct fuel' as [|fuel']; [lia|].
  rewrite revealTile_fuel_S in *.
  destruct (getTile b row col) as [t| |]; cbn [bind] in *; cbv zeta in *;
    try discriminate.
  destruct (isRevealed t || isFlagged t); [exact Hrun|].
  destruct (adjacentMines t =? 0)%nat; [|exact Hrun].
  revert Hrun. apply forEach_mono. intros i s s'. apply forEach_mono.
  intros j u u' Hbody.
  destruct ((i =? 0) && (j =? 0)); [exact Hbody|].
  destruct (inGrid (row + i) (col + j)); [|exact Hbody].
  apply IH; [lia|exact Hbody].
Qed.

Lemma reveal_step_unrevealed (x y : Tile) :
  reveal_step x y -> unrevealed y = true -> unrevealed x = true.
Proof.
  intros [->|(Hr & _ & ->)] Hy; [exact Hy|].
  unfold unrevealed. rewrite Hr. reflexivity.
Qed.

Lemma unrevealed_reveal_le (b b' : Board) :
  grid_rel reveal_step b b' ->
  (countTiles unrevealed b' <= countTiles unrevealed b)%nat.
Proof. apply countTiles_rel_le. exact reveal_step_unrevealed. Qed.

Lemma unrevealed_setTile (b : Board) (row col : Z) (t : Tile) :
  getTile b row col = Ok t -> isRevealed t = false ->
  (countTiles unrevealed (setTile b row col (with_isRevealed true t)) + 1 =
   countTiles unrevealed b)%nat.
Proof.
  intros Hget Hr.
  pose proof (countTiles_setTile unrevealed b row col t (with_isRevealed true t) Hget) as H.
  unfold unrevealed in H at 2 4. rewrite Hr in H. simpl in H. lia.
Qed.

(** On a well-formed board and a cell of the grid the flood fill returns
    as soon as the fuel exceeds the number of unrevealed tiles. *)
Lemma revealTile_fuel_total (fuel : nat) :
  forall (b : Board) (row col : Z) (vis : Visits),
  wf b -> inGrid row col = true ->
  (countTiles unrevealed b < fuel)%nat ->
  exists st, revealTile_fuel fuel b row col vis = Ok st.
Proof.
  induction fuel as [|fuel IH]; intros b row col vis Hwf Hin Hlt; [lia|].
  rewrite revealTile_fuel_S.
  destruct (wf_getTile b row col Hwf Hin) as (t & Hget). rewrite Hget.
  cbn [bind]; cbv zeta.
  destruct (isRevealed t || isFlagged t) eqn:Hguard; [eauto|].
  apply orb_false_iff in Hguard as [Hr Hf].
  destruct (adjacentMines t =? 0)%nat; [|eauto].
  pose proof (unrevealed_setTile b row col t Hget Hr) as Hdec.
  set (st0 := (setTile b row col (with_isRevealed true t), (row, col) :: vis)).
  set (I := fun st : Board * Visits =>
              wf (fst st) /\ (countTiles unrevealed (fst st) < fuel)%nat).
  assert (I st0) as H0.
  { split; simpl; [|lia].
    eapply wf_grid_rel; [|exact Hwf].
    eapply (grid_rel_setTile (fun _ _ => True)); eauto. }
  assert (forall fuel0 s row' col' s',
            I s -> revealTile_fuel fuel0 (fst s) row' col' (snd s) = Ok s' -> I s')
    as Hkeep.
  { intros fuel0 s row' col' s' [Hwfs Hcs] Hrun.
    apply revealTile_fuel_post in Hrun as (Hrel & _).
    split; [eapply wf_grid_rel; eauto|].
    pose proof (unrevealed_reveal_le _ _ Hrel). lia. }
  destruct (forEach_total I (range (-1) 2)
    (fun i st =>
       forEach (range (-1) 2) (fun j st =>
         if (i =? 0) && (j =? 0) then Ok st
         else if inGrid (row + i) (col + j)
              then revealTile_fuel fuel (fst st) (row + i) (col + j) (snd st)
              else Ok st) st)) with (s := st0) as (s' & Hs' & _); [|exact H0|eauto].
  intros i s _ Hs. apply forEach_total; [|exact Hs].
  intros j u _ Hu.
  destruct ((i =? 0) && (j =? 0)); [eauto|].
  destruct (inGrid (row + i) (col + j)) eqn:Hin'; [|eauto].
  destruct Hu as [Hwfu Hcu].
  destruct (IH (fst u) (row + i) (col + j) (snd u) Hwfu Hin' Hcu) as (u' & Hu').
  exists u'. split; [exact Hu'|]. eapply Hkeep; [split|]; eauto.
Qed.

(** On any board at all, the depth bound that [revealTile] passes is never
    exhausted: the recursion may meet a missing tile, it does not run out
    of fuel. *)
Lemma revealTile_fuel_not_Diverge (fuel : nat) :
  forall (b : Board) (row col : Z) (vis : Visits),
  (countTiles unrevealed b < fuel)%nat ->
  revealTile_fuel fuel b row col vis <> Diverge.
Proof.
  induction fuel as [|fuel IH]; intros b row col vis Hlt; [lia|].
  rewrite revealTile_fuel_S.
  pose proof (getTile_not_Diverge b row col) as Hnd.
  destruct (getTile b row col) as [t| |] eqn:Hget; cbn [bind]; cbv zeta;
    [|discriminate|contradiction].
  destruct (isRevealed t || isFlagged t) eqn:Hguard; [discriminate|].
  apply orb_false_iff in Hguard as [Hr Hf].
  destruct (adjacentMines t =? 0)%nat; [|discriminate].
  pose proof (unrevealed_setTile b row col t Hget Hr) as Hdec.
  set (I := fun st : Board * Visits => (countTiles unrevealed (fst st) < fuel)%nat).
  apply (forEach_not_Diverge I); [|unfold I; simpl; lia].
  intros i s _ Hs. split.
  - apply (forEach_not_Diverge I); [|exact Hs].
    intros j u _ Hu.
    destruct ((i =? 0) && (j =? 0)); [split; [discriminate|intros ? [= <-]; exact Hu]|].
    destruct (inGrid (row + i) (col + j)); [|split; [discriminate|intros ? [= <-]; exact Hu]].
    split; [apply IH; exact Hu|].
    intros u' Hrun. apply revealTile_fuel_post in Hrun as (Hrel & _).
    pose proof (unrevealed_reveal_le _ _ Hrel). unfold I in *. lia.
  - intros s' Hrun. revert Hrun. apply (forEach_inv I); [|exact Hs].
    intros j u u' _ Hu Hbody.
    destruct ((i =? 0) && (j =? 0)); [injection Hbody as <-; exact Hu|].
    destruct (inGrid (row + i) (col + j)); [|injection Hbody as <-; exact Hu].
    apply revealTile_fuel_post in Hbody as (Hrel & _).
    pose proof (unrevealed_reveal_le _ _ Hrel). unfold I in *. lia.
Qed.

Lemma revealTile_not_Diverge (b : Board) (row col : Z) :
  revealTile b row col <> Diverge.
Proof.
  unfold revealTile.
  pose proof (revealTile_fuel_not_Diverge (S (countTiles unrevealed b)) b row col []
                (Nat.lt_succ_diag_r _)) as H.
  destruct (revealTile_fuel _ b row col []) as [[b' vis]| |]; simpl;
    [discriminate|discriminate|contradiction].
Qed.

(** The result of [revealTile] is the result of the recursion at every
    depth bound above the number of unrevealed tiles. *)
Lemma revealTile_fuel_enough (b : Board) (row col : Z) (vis : Visits) :
  wf b -> inGrid row col = true ->
  exists st, forall fuel, (countTiles unrevealed b < fuel)%nat ->
    revealTile_fuel fuel b row col vis = Ok st.
Proof.
  intros Hwf Hin.
  destruct (revealTile_fuel_total (S (countTiles unrevealed b)) b row col vis Hwf Hin)
    as (st & Hst); [lia|].
  exists st. intros fuel Hlt. eapply revealTile_fuel_mono; [|exact Hst]. lia.
Qed.

Lemma revealTile_Ok (b b' : Board) (row col : Z) :
  revealTile b row col = Ok b' ->
  exists vis, revealTile_fuel (S (countTiles unrevealed b)) b row col [] = Ok (b', vis).
Proof.
  unfold revealTile. intros H. apply bind_Ok in H as ([b1 vis] & H1 & H2).
  injection H2 as <-. eauto.
Qed.

Lemma revealTile_rel (b b' : Board) (row col : Z) :
  revealTile b row col = Ok b' -> grid_rel reveal_step b b'.
Proof.
  intros H. apply revealTile_Ok in H as (vis & H).
  apply revealTile_fuel_post in H as (Hrel & _). exact Hrel.
Qed.

(** ** revealTile: the expansion from a zero count *)

Lemma settledAt_step (b b' : Board) (row col : Z) :
  grid_rel reveal_step b b' -> settledAt b row col -> settledAt b' row col.
Proof.
  intros Hrel (u & Hget & Hu).
  destruct (grid_rel_getTile_l _ _ _ _ _ _ Hrel Hget) as (u' & Hget' & Hstep).
  exists u'. split; [exact Hget'|].
  destruct Hstep as [->|(_ & _ & ->)]; [exact Hu|reflexivity].
Qed.

(** The step of the neighbour loops for the offsets [i] and [j]. *)
Lemma neighbour_step_post (fuel : nat) (row col i j : Z) (u u' : Board * Visits) :
  (if (i =? 0) && (j =? 0) then Ok u
   else if inGrid (row + i) (col + j)
        then revealTile_fuel fuel (fst u) (row + i) (col + j) (snd u)
        else Ok u) = Ok u' ->
  fill_post (fst u) (snd u) u'.
Proof.
  destruct ((i =? 0) && (j =? 0)); [intros [= <-]; destruct u; apply fill_post_refl|].
  destruct (inGrid (row + i) (col + j)); [|intros [= <-]; destruct u; apply fill_post_refl].
  apply revealTile_fuel_post.
Qed.

(** After a call the tile of the target cell is revealed or flagged. *)
Lemma revealTile_fuel_settles (fuel : nat) (b : Board) (row col : Z)
    (vis : Visits) (st : Board * Visits) :
  revealTile_fuel fuel b row col vis = Ok st -> settledAt (fst st) row col.
Proof.
  destruct fuel as [|fuel]; [discriminate|].
  rewrite revealTile_fuel_S. intros Hrun.
  apply bind_Ok in Hrun as (t & Hget & Hrun).
  destruct (isRevealed t || isFlagged t) eqn:Hguard.
  { injection Hrun as <-. exists t. auto. }
  cbv zeta in Hrun.
  set (st0 := (setTile b row col (with_isRevealed true t), (row, col) :: vis)) in *.
  assert (settledAt (fst st0) row col) as H0.
  { exists (with_isRevealed true t). split; [|reflexivity].
    eapply getTile_setTile_same; eauto. }
  destruct (adjacentMines t =? 0)%nat; [|injection Hrun as <-; exact H0].
  revert Hrun. apply (forEach_inv (fun s => settledAt (fst s) row col)); [|exact H0].
  intros i s s' _ Hs.
  apply (forEach_inv (fun s => settledAt (fst s) row col)); [|exact Hs].
  intros j u u' _ Hu Hbody.
  apply neighbour_step_post in Hbody as (Hrel & _).
  eapply settledAt_step; eauto.
Qed.

(** A covered, unflagged tile with the adjacency count 0, a mine or not,
    has every neighbour on the board revealed by the call, the flagged
    ones excepted. *)
Lemma revealTile_expands_on_zero (b : Board) (row col : Z) (t : Tile) :
  wf b -> inGrid row col = true ->
  getTile b row col = Ok t ->
  isRevealed t = false -> isFlagged t = false -> adjacentMines t = 0%nat ->
  exists b',
    revealTile b row col = Ok b' /\
    forall i j, -1 <= i <= 1 -> -1 <= j <= 1 ->
      inGrid (row + i) (col + j) = true -> settledAt b' (row + i) (col + j).
Proof.
  intros Hwf Hin Hget Hr Hf Hadj.
  destruct (revealTile_fuel_enough b row col [] Hwf Hin) as ([b' vis] & Hall).
  specialize (Hall (S (countTiles unrevealed b)) (Nat.lt_succ_diag_r _)).
  exists b'. split; [unfold revealTile; rewrite Hall; reflexivity|].
  rewrite revealTile_fuel_S, Hget in Hall. cbn [bind] in Hall.
  rewrite Hr, Hf, Hadj in Hall. cbn [orb Nat.eqb] in Hall. cbv zeta in Hall.
  set (fuel := countTiles unrevealed b) in *.
  set (st0 := (setTile b row col (with_isRevealed true t), [(row, col)])) in *.
  set (I := fun s : Board * Visits => settledAt (fst s) row col).
  assert (I st0) as H0.
  { exists (with_isRevealed true t). split; [|reflexivity].
    eapply getTile_setTile_same; eauto. }
  set (Q := fun (i : Z) (s : Board * Visits) =>
    forall j, In j (range (-1) 2) ->
      inGrid (row + i) (col + j) = true -> settledAt (fst s) (row + i) (col + j)).
  assert (I (b', vis) /\ forall i, In i (range (-1) 2) -> Q i (b', vis)) as (_ & Hdone).
  { revert Hall. apply (forEach_establish I Q); [|exact H0].
    intros i s s' _ Hs Hrow.
    set (I' := fun u : Board * Visits => I u /\ grid_rel reveal_step (fst s) (fst u)).
    set (Q' := fun (j : Z) (u : Board * Visits) =>
      inGrid (row + i) (col + j) = true -> settledAt (fst u) (row + i) (col + j)).
    assert (I' s' /\ forall j, In j (range (-1) 2) -> Q' j s') as ((Hs' & Hrel) & Hcols).
    { revert Hrow. apply (forEach_establish I' Q').
      - intros j u u' _ (Hu & Hrel_u) Hbody.
        pose proof (neighbour_step_post _ _ _ _ _ _ _ Hbody) as (Hstep & _).
        split; [split|split].
        + eapply settledAt_step; eauto.
        + eapply grid_rel_trans; eauto using reveal_step_trans.
        + intros Hin'. revert Hbody.
          destruct (Z.eqb_spec i 0) as [->|]; [destruct (Z.eqb_spec j 0) as [->|]|];
            cbn [andb]; rewrite ?Hin'.
          * intros [= <-]. rewrite !Z.add_0_r. exact Hu.
          * apply revealTile_fuel_settles.
          * apply revealTile_fuel_settles.
        + intros y Hy Hin'. eapply settledAt_step; eauto.
      - split; [exact Hs|]. apply grid_rel_refl, reveal_step_refl. }
    split; [exact Hs'|]. split; [exact Hcols|].
    intros y Hy j Hj Hin'. eapply settledAt_step; eauto. }
  intros i j Hi Hj. apply Hdone; apply In_range; lia.
Qed.

(** ** revealTile: the no-op rule, the expansion and the termination *)

(** The guard of line 95. *)
Lemma revealTile_guarded (b : Board) (row col : Z) (t : Tile) :
  getTile b row col = Ok t ->
  isRevealed t || isFlagged t = true ->
  revealTile b row col = Ok b.
Proof.
  intros Hget Hguard. unfold revealTile.
  rewrite revealTile_fuel_S, Hget. cbn [bind].
  rewrite Hguard. reflexivity.
Qed.

(** C9. revealTile is a no-op on a tile that is already revealed or is
    flagged: for every board and every cell that holds such a tile, the
    board it returns is equal to its input. *)
Theorem revealTile_noop (b : Board) (row col : Z) (t : Tile) :
  getTile b row col = Ok t ->
  isRevealed t = true \/ isFlagged t = true ->
  revealTile b row col = Ok b.
Proof.
  intros Hget Hguard. apply (revealTile_guarded b row col t Hget).
  apply orb_true_iff. exact Hguard.
Qed.

Lemma revealTile_noop_witness :
  getTile flaggedCorner 0 0 = Ok (with_isFlagged true emptyTile) /\
  revealTile flaggedCorner 0 0 = Ok flaggedCorner.
Proof.
  split; [reflexivity|].
  apply (revealTile_noop flaggedCorner 0 0 (with_isFlagged true emptyTile)).
  - reflexivity.
  - right. reflexivity.
Defined.




(** C6. On every well-formed board and every cell of the grid the flood
    fill terminates: the recursion returns at every depth bound above the
    number of unrevealed tiles, always with the same board.  It writes
    [isRevealed] to no cell twice, and only to cells whose tile was neither
    revealed nor flagged when the call started; flagged tiles come out
    unchanged. *)
Theorem revealTile_terminates (b : Board) (row col : Z) :
  wf b -> inGrid row col = true ->
  exists b' vis,
    (forall fuel, (countTiles unrevealed b < fuel)%nat ->
       revealTile_fuel fuel b row col [] = Ok (b', vis)) /\
    revealTile b row col = Ok b' /\
    List.NoDup vis /\
    (forall r c, In (r, c) vis ->
       exists t, getTile b r c = Ok t /\ isRevealed t = false /\ isFlagged t = false) /\
    (forall r c t, getTile b r c = Ok t -> isFlagged t = true ->
       getTile b' r c = Ok t).
Proof.
  intros Hwf Hin.
  destruct (revealTile_fuel_enough b row col [] Hwf Hin) as ([b' vis] & Hall).
  exists b', vis.
  assert (revealTile_fuel (S (countTiles unrevealed b)) b row col [] = Ok (b', vis))
    as Hrun by (apply Hall; lia).
  pose proof (revealTile_fuel_post _ _ _ _ _ _ Hrun) as (Hrel & Hlog & Hcov).
  simpl in Hrel, Hlog, Hcov.
  split; [exact Hall|]. split; [|split; [|split]].
  - unfold revealTile. rewrite Hrun. reflexivity.
  - apply NoDup_ListNoDup. apply Hlog. split; [constructor|]. intros rc [].
  - intros r c Hrc. destruct (Hcov _ Hrc) as [[]|Hc]. exact Hc.
  - intros r c t Hget Hflag.
    destruct (grid_rel_getTile_l _ _ _ _ _ _ Hrel Hget) as (t' & Hget' & Hstep).
    destruct Hstep as [->|(_ & Hf & _)]; [exact Hget'|congruence].
Qed.

Lemma emptyBoard_wf : wf emptyBoard.
Proof. split; [reflexivity|]. repeat constructor. Qed.

Lemma revealTile_terminates_witness :
  wf emptyBoard /\ inGrid 0 0 = true /\
  exists b' vis,
    (forall fuel, (countTiles unrevealed emptyBoard < fuel)%nat ->
       revealTile_fuel fuel emptyBoard 0 0 [] = Ok (b', vis)) /\
    revealTile emptyBoard 0 0 = Ok b' /\
    List.NoDup vis /\
    (forall r c, In (r, c) vis ->
       exists t, getTile emptyBoard r c = Ok t /\
                 isRevealed t = false /\ isFlagged t = false) /\
    (forall r c t, getTile emptyBoard r c = Ok t -> isFlagged t = true ->
       getTile b' r c = Ok t).
Proof.
  assert (wf emptyBoard) as H by (split; [reflexivity|repeat constructor]).
  split; [exact H|]. split; [reflexivity|].
  apply (revealTile_terminates emptyBoard 0 0).
  - exact H.
  - reflexivity.
Defined.

(** On the board that is entirely zero-adjacency the fill reveals every
    tile, each exactly once. *)
Example revealTile_all_zero :
  revealTile emptyBoard 0 0 = Ok (revealBoard emptyBoard) /\
  exists vis,
    revealTile_fuel 101 emptyBoard 0 0 [] = Ok (revealBoard emptyBoard, vis) /\
    length vis = 100%nat.
Proof.
  split; [vm_compute; reflexivity|].
  eexists. split; vm_compute; reflexivity.
Qed.

(** ** checkWinCondition *)

Lemma revealedSafeInRow_filter (r : list Tile) :
  length (List.filter (fun tile => isRevealed tile && negb (isMine tile)) r) =
  revealedSafeInRow r.
Proof.
  induction r as [|t r IH]; simpl; [reflexivity|].
  destruct (isRevealed t), (isMine t); simpl; lia.
Qed.

Lemma revealedSafe_filter (b : Board) :
  length (List.filter (fun tile => isRevealed tile && negb (isMine tile)) (concat b)) =
  revealedSafe b.
Proof.
  induction b as [|r b IH]; simpl; [reflexivity|].
  rewrite List.filter_app, length_app, revealedSafeInRow_filter, IH. reflexivity.
Qed.

(** C7. checkWinCondition is true exactly when the number of revealed
    non-mine tiles is [BOARD_SIZE * BOARD_SIZE - NUM_MINES], that is 85, and
    a board that differs in its flags alone gets the same answer. *)
Theorem checkWinCondition_spec (b b' : Board) :
  grid_rel same_mine_reveal b b' ->
  (checkWinCondition b = true <->
     revealedSafe b = (Z.to_nat (BOARD_SIZE * BOARD_SIZE) - NUM_MINES)%nat) /\
  (Z.to_nat (BOARD_SIZE * BOARD_SIZE) - NUM_MINES)%nat = 85%nat /\
  checkWinCondition b' = checkWinCondition b.
Proof.
  intros Hrel. split; [|split].
  - unfold checkWinCondition. rewrite revealedSafe_filter, Z.eqb_eq.
    unfold BOARD_SIZE, NUM_MINES. lia.
  - reflexivity.
  - unfold checkWinCondition. f_equal. f_equal. symmetry.
    eapply count_rel_eq; [|apply grid_rel_concat; exact Hrel].
    intros x y [Hm Hr]. rewrite Hm, Hr. reflexivity.
Qed.

Lemma checkWinCondition_spec_witness :
  grid_rel same_mine_reveal flaggedRow unflaggedRow /\
  (checkWinCondition flaggedRow = true <->
     revealedSafe flaggedRow = (Z.to_nat (BOARD_SIZE * BOARD_SIZE) - NUM_MINES)%nat) /\
  (Z.to_nat (BOARD_SIZE * BOARD_SIZE) - NUM_MINES)%nat = 85%nat /\
  checkWinCondition unflaggedRow = checkWinCondition flaggedRow.
Proof.
  assert (grid_rel same_mine_reveal flaggedRow unflaggedRow) as H.
  { repeat constructor. }
  split; [exact H|]. apply (checkWinCondition_spec flaggedRow unflaggedRow H).
Defined.

(** ** calculateAdjacentMines *)

Lemma same_but_adjacent_refl (t : Tile) : same_but_adjacent t t.
Proof. repeat split. Qed.

Lemma same_but_adjacent_trans (x y z : Tile) :
  same_but_adjacent x y -> same_but_adjacent y z -> same_but_adjacent x z.
Proof. unfold same_but_adjacent. intuition congruence. Qed.

Lemma countStep_spec (b : Board) (row col : Z) (n : nat) :
  wf b ->
  (if inGrid row col
   then let* t := getTile b row col in if isMine t then Ok (S n) else Ok n
   else Ok n) = Ok (n + Nat.b2n (isMineAt b row col))%nat.
Proof.
  intros Hwf. unfold isMineAt.
  destruct (inGrid row col) eqn:Hin.
  - destruct (wf_getTile b row col Hwf Hin) as (t & ->). cbn [bind].
    destruct (isMine t); simpl; f_equal; lia.
  - destruct (getTile b row col) as [t| |] eqn:Hget; simpl; try (f_equal; lia).
    rewrite (getTile_wf_inGrid _ _ _ _ Hwf Hget) in Hin. discriminate.
Qed.

Lemma countAround_spec (b : Board) (row col : Z) :
  wf b -> countAround b row col = Ok (mineNeighbours b row col).
Proof.
  intros Hwf. unfold countAround.
  change (range (-1) 2) with [-1; 0; 1].
  cbn [forEach Z.eqb andb bind].
  repeat (rewrite (countStep_spec b _ _ _ Hwf); cbn [bind]).
  unfold mineNeighbours, neighbours. cbn [map List.filter fst snd].
  destruct (isMineAt b (row + -1) (col + -1)), (isMineAt b (row + -1) (col + 0)),
    (isMineAt b (row + -1) (col + 1)), (isMineAt b (row + 0) (col + -1)),
    (isMineAt b (row + 0) (col + 1)), (isMineAt b (row + 1) (col + -1)),
    (isMineAt b (row + 1) (col + 0)), (isMineAt b (row + 1) (col + 1));
    reflexivity.
Qed.

Lemma isMineAt_rel (b b' : Board) (row col : Z) :
  grid_rel same_but_adjacent b b' -> isMineAt b' row col = isMineAt b row col.
Proof.
  intros Hrel. unfold isMineAt.
  destruct (getTile b' row col) as [t'| |] eqn:Hget'.
  - destruct (grid_rel_getTile_r _ _ _ _ _ _ Hrel Hget') as (t & -> & Hm & _).
    exact Hm.
  - destruct (getTile b row col) as [t| |] eqn:Hget; try reflexivity.
    destruct (grid_rel_getTile_l _ _ _ _ _ _ Hrel Hget) as (t' & Ht' & _).
    congruence.
  - exfalso. eapply getTile_not_Diverge; eauto.
Qed.

Lemma mineNeighbours_rel (b b' : Board) (row col : Z) :
  grid_rel same_but_adjacent b b' ->
  mineNeighbours b' row col = mineNeighbours b row col.
Proof.
  intros Hrel. unfold mineNeighbours. f_equal.
  apply List.filter_ext. intros rc. apply isMineAt_rel, Hrel.
Qed.

Lemma calculateAdjacentMines_eq (b : Board) :
  calculateAdjacentMines b =
  forEach (range 0 BOARD_SIZE) (fun row nb =>
    forEach (range 0 BOARD_SIZE) (fun col nb => calcCell row col nb) nb) b.
Proof. unfold calculateAdjacentMines. rewrite copyRows_id. reflexivity. Qed.

Lemma calcCell_spec (b0 nb : Board) (row col : Z) :
  wf nb -> grid_rel same_but_adjacent b0 nb -> inGrid row col = true ->
  exists nb',
    calcCell row col nb = Ok nb' /\
    grid_rel same_but_adjacent nb nb' /\
    adjacency_ok b0 nb' row col /\
    (forall r c, row <> r \/ col <> c -> getTile nb' r c = getTile nb r c).
Proof.
  intros Hwf Hrel Hin. unfold calcCell.
  destruct (wf_getTile nb row col Hwf Hin) as (t & Hget). rewrite Hget. cbn [bind].
  destruct (isMine t) eqn:Hmine; cbn [negb].
  - exists nb. split; [reflexivity|]. split; [|split].
    + apply grid_rel_refl, same_but_adjacent_refl.
    + intros t' Ht' Hm. congruence.
    + reflexivity.
  - rewrite (countAround_spec nb row col Hwf). cbn [bind].
    eexists. split; [reflexivity|]. split; [|split].
    + eapply grid_rel_setTile; eauto using same_but_adjacent_refl.
      repeat split.
    + intros t' Ht' _.
      rewrite (getTile_setTile_same _ _ _ _ _ Hget) in Ht'.
      injection Ht' as <-. simpl. apply mineNeighbours_rel, Hrel.
    + intros r c Hne. apply getTile_setTile_other, Hne.
Qed.

Lemma calcRow_spec (b0 nb : Board) (row : Z) :
  wf nb -> grid_rel same_but_adjacent b0 nb -> 0 <= row < BOARD_SIZE ->
  exists nb',
    forEach (range 0 BOARD_SIZE) (fun col nb => calcCell row col nb) nb = Ok nb' /\
    grid_rel same_but_adjacent nb nb' /\
    (forall col, In col (range 0 BOARD_SIZE) -> adjacency_ok b0 nb' row col) /\
    (forall r c, row <> r -> getTile nb' r c = getTile nb r c).
Proof.
  intros Hwf Hrel Hrow.
  set (I := fun (done : list Z) (s : Board) =>
    grid_rel same_but_adjacent nb s /\
    (forall col, In col done -> adjacency_ok b0 s row col) /\
    (forall r c, row <> r -> getTile s r c = getTile nb r c)).
  destruct (forEach_total_prefix I (fun col nb => calcCell row col nb)
              (range 0 BOARD_SIZE) [] nb) as (nb' & Hrun & Hrel' & Hok & Hother).
  - intros done x rest t Hsplit (Hrel_t & Hok_t & Hother_t).
    assert (In x (range 0 BOARD_SIZE)) as Hx.
    { simpl in Hsplit. rewrite Hsplit. apply in_or_app. right. left. reflexivity. }
    apply In_range in Hx.
    assert (wf t) as Hwf_t by (eapply wf_grid_rel; eauto).
    assert (grid_rel same_but_adjacent b0 t) as Hrel0.
    { eapply grid_rel_trans; eauto using same_but_adjacent_trans. }
    destruct (calcCell_spec b0 t row x Hwf_t Hrel0) as (t' & Hcell & Hrel_t' & Hok' & Hother').
    { apply inGrid_spec. lia. }
    exists t'. split; [exact Hcell|]. split; [|split].
    + eapply grid_rel_trans; eauto using same_but_adjacent_trans.
    + intros col Hcol. apply in_app_or in Hcol as [Hcol|[<-|[]]]; [|exact Hok'].
      destruct (decide (x = col)) as [<-|Hne]; [exact Hok'|].
      intros u Hu. rewrite Hother' in Hu by auto. apply Hok_t; auto.
    + intros r c Hne. rewrite Hother' by auto. apply Hother_t, Hne.
  - split; [apply grid_rel_refl, same_but_adjacent_refl|]. split; [intros col []|].
    reflexivity.
  - exists nb'. cbn [app] in Hok. auto.
Qed.

(** The adjacency pass is total on well-formed boards and stores the
    neighbouring mine count in every tile that is not a mine. *)
Lemma calculateAdjacentMines_correct (b : Board) :
  wf b ->
  exists b',
    calculateAdjacentMines b = Ok b' /\
    wf b' /\
    grid_rel same_but_adjacent b b' /\
    forall row col t, getTile b' row col = Ok t -> isMine t = false ->
      adjacentMines t = mineNeighbours b' row col.
Proof.
  intros Hwf. rewrite calculateAdjacentMines_eq.
  set (I := fun (done : list Z) (s : Board) =>
    grid_rel same_but_adjacent b s /\
    (forall row col, In row done -> In col (range 0 BOARD_SIZE) ->
       adjacency_ok b s row col)).
  destruct (forEach_total_prefix I
              (fun row nb =>
                 forEach (range 0 BOARD_SIZE) (fun col nb => calcCell row col nb) nb)
              (range 0 BOARD_SIZE) [] b) as (b' & Hrun & Hrel & Hok).
  - intros done x rest t Hsplit (Hrel_t & Hok_t).
    assert (In x (range 0 BOARD_SIZE)) as Hx.
    { simpl in Hsplit. rewrite Hsplit. apply in_or_app. right. left. reflexivity. }
    apply In_range in Hx.
    assert (wf t) as Hwf_t by (eapply wf_grid_rel; eauto).
    destruct (calcRow_spec b t x Hwf_t Hrel_t Hx) as (t' & Hrow & Hrel' & Hok' & Hother').
    exists t'. split; [exact Hrow|]. split.
    + eapply grid_rel_trans; eauto using same_but_adjacent_trans.
    + intros row col Hrow_in Hcol.
      apply in_app_or in Hrow_in as [Hdone|[<-|[]]]; [|apply Hok'; exact Hcol].
      destruct (decide (x = row)) as [<-|Hne]; [apply Hok'; exact Hcol|].
      intros u Hu. rewrite Hother' in Hu by auto. apply (Hok_t row col); auto.
  - split; [apply grid_rel_refl, same_but_adjacent_refl|]. intros row col [].
  - cbn [app] in Hrel, Hok.
    assert (wf b') as Hwf' by (eapply wf_grid_rel; eauto).
    exists b'. split; [exact Hrun|]. split; [exact Hwf'|]. split; [exact Hrel|].
    intros row col t Hget Hmine.
    rewrite (mineNeighbours_rel b b' row col Hrel).
    pose proof (getTile_wf_inGrid _ _ _ _ Hwf' Hget) as Hin.
    apply inGrid_spec in Hin as [Hr Hc].
    apply (Hok row col); auto; apply In_range; lia.
Qed.

(** C8. On every well-formed board calculateAdjacentMines returns, keeps
    the mines, the revealed marks and the flags of every tile, and stores
    in every non-mine tile the number of mines among its neighbours that
    lie on the board (up to 8, fewer at the edges and corners). *)
Theorem calculateAdjacentMines_spec (b : Board) :
  wf b ->
  exists b',
    calculateAdjacentMines b = Ok b' /\
    wf b' /\
    grid_rel same_but_adjacent b b' /\
    forall row col t, getTile b' row col = Ok t -> isMine t = false ->
      adjacentMines t = mineNeighbours b' row col /\
      (adjacentMines t <= 8)%nat.
Proof.
  intros Hwf.
  destruct (calculateAdjacentMines_correct b Hwf) as (b' & Hrun & Hwf' & Hrel & Hadj).
  exists b'. split; [exact Hrun|]. split; [exact Hwf'|]. split; [exact Hrel|].
  intros row col t Hget Hmine. rewrite (Hadj row col t Hget Hmine).
  split; [reflexivity|].
  unfold mineNeighbours.
  etransitivity; [apply List.filter_length_le|]. reflexivity.
Qed.

Lemma calculateAdjacentMines_spec_witness :
  wf twoMines /\
  exists b',
    calculateAdjacentMines twoMines = Ok b' /\
    wf b' /\
    grid_rel same_but_adjacent twoMines b' /\
    forall row col t, getTile b' row col = Ok t -> isMine t = false ->
      adjacentMines t = mineNeighbours b' row col /\
      (adjacentMines t <= 8)%nat.
Proof.
  assert (wf twoMines) as H by (split; [reflexivity|repeat constructor]).
  split; [exact H|]. apply (calculateAdjacentMines_spec twoMines H).
Defined.

(** ** Mine placement *)

Lemma mine_step_refl (t : Tile) : mine_step t t.
Proof. left. reflexivity. Qed.

Lemma mine_step_trans (x y z : Tile) :
  mine_step x y -> mine_step y z -> mine_step x z.
Proof.
  intros [->|(Hm & ->)] [->|(Hm' & ->)]; unfold mine_step; auto;
    simpl in Hm'; discriminate.
Qed.

(** What a run of the loop that returns has done: the tiles changed are
    new mines, their number is what was still to place, and no cell that
    the rejection test [skip] excludes was touched. *)
Lemma mineLoop_spec (skip : Z -> Z -> bool) (numMines : nat) (n : nat) :
  forall (rnd : list Z) (minesPlaced : nat) (b b' : Board) (rnd' : list Z),
  (length rnd <= n)%nat ->
  mineLoop skip numMines rnd minesPlaced b = Ok (b', rnd') ->
  (minesPlaced <= numMines)%nat ->
  grid_rel mine_step b b' /\
  (countTiles isMine b' + minesPlaced = countTiles isMine b + numMines)%nat /\
  (forall row col, skip row col = true -> getTile b' row col = getTile b row col).
Proof.
  induction n as [|n IH]; intros rnd minesPlaced b b' rnd' Hlen Hrun Hle.
  - destruct rnd; [|simpl in Hlen; lia]. simpl in Hrun.
    destruct (Nat.ltb_spec minesPlaced numMines); [discriminate|].
    injection Hrun as <- <-.
    split; [apply grid_rel_refl, mine_step_refl|]. split; [lia|reflexivity].
  - destruct rnd as [|row [|col rnd]]; simpl in Hrun;
      destruct (Nat.ltb_spec minesPlaced numMines) as [Hlt|Hge];
      try discriminate;
      try (injection Hrun as <- <-;
           split; [apply grid_rel_refl, mine_step_refl|]; split; [lia|reflexivity]).
    apply bind_Ok in Hrun as (t & Hget & Hrun).
    assert (length rnd <= n)%nat as Hlen' by (simpl in Hlen; lia).
    destruct (negb (isMine t) && negb (skip row col)) eqn:Hacc.
    + apply andb_true_iff in Hacc as [Hm Hs].
      apply negb_true_iff in Hm, Hs.
      destruct (IH _ _ _ _ _ Hlen' Hrun) as (Hrel & Hcount & Hskip); [lia|].
      split; [|split].
      * eapply grid_rel_trans; [exact mine_step_trans| |exact Hrel].
        eapply grid_rel_setTile; eauto using mine_step_refl. right. auto.
      * pose proof (countTiles_setTile isMine b row col t (with_isMine true t) Hget) as Hc.
        rewrite Hm in Hc. simpl in Hc. lia.
      * intros r c Hrc. rewrite Hskip by exact Hrc.
        apply getTile_setTile_other.
        destruct (decide (row = r)) as [->|]; [|auto].
        destruct (decide (col = c)) as [->|]; [|auto].
        congruence.
    + apply (IH _ _ _ _ _ Hlen' Hrun Hle).
Qed.

Lemma getTile_emptyBoard (row col : Z) (t : Tile) :
  getTile emptyBoard row col = Ok t -> t = emptyTile.
Proof.
  intros Hget. apply getTile_Ok in Hget as (_ & _ & r & H1 & H2).
  apply list_elem_of_lookup_2, list_elem_of_In, repeat_spec in H1. subst r.
  apply list_elem_of_lookup_2, list_elem_of_In, repeat_spec in H2. exact H2.
Qed.

(** The excluded cell of placeMines is never mined, and [numMines] tiles
    are. *)
Lemma placeMines_spec (rnd rnd' : list Z) (b b' : Board) (numMines : nat) (row col : Z) :
  placeMines rnd b numMines row col = Ok (b', rnd') ->
  grid_rel mine_step b b' /\
  countTiles isMine b' = (countTiles isMine b + numMines)%nat /\
  getTile b' row col = getTile b row col.
Proof.
  unfold placeMines. rewrite copyRows_id. intros Hrun.
  destruct (mineLoop_spec _ _ (length rnd) _ _ _ _ _ (le_n _) Hrun) as (Hrel & Hc & Hskip);
    [lia|].
  split; [exact Hrel|]. split; [lia|].
  apply Hskip. rewrite !Z.eqb_refl. reflexivity.
Qed.

(** The loop returns as soon as the draws have selected enough distinct
    cells: when the next draws are distinct cells of the grid that hold no
    mine and pass the rejection test, as many as are still to place, every
    one of them is accepted. *)
Lemma mineLoop_returns (skip : Z -> Z -> bool) (numMines : nat) (rest : list Z) :
  forall (cells : list (Z * Z)) (minesPlaced : nat) (b : Board),
  List.NoDup cells ->
  (minesPlaced + length cells = numMines)%nat ->
  (forall rc, In rc cells ->
     skip (fst rc) (snd rc) = false /\
     exists t, getTile b (fst rc) (snd rc) = Ok t /\ isMine t = false) ->
  exists b', mineLoop skip numMines (drawsOf cells ++ rest) minesPlaced b = Ok (b', rest).
Proof.
  induction cells as [|[row col] cells IH]; intros minesPlaced b Hnd Hlen Hcells.
  - simpl in *. exists b. destruct rest as [|x [|y rest]]; simpl;
      destruct (Nat.ltb_spec minesPlaced numMines); try lia; reflexivity.
  - simpl in Hlen. simpl drawsOf. cbn [app mineLoop].
    destruct (Nat.ltb_spec minesPlaced numMines); [|lia].
    destruct (Hcells (row, col) (or_introl eq_refl)) as (Hskip & t & Hget & Hmine).
    simpl in Hskip, Hget. rewrite Hget. cbn [bind]. rewrite Hmine, Hskip. cbn [negb andb].
    apply List.NoDup_cons_iff in Hnd as [Hnotin Hnd].
    apply IH; [exact Hnd|lia|].
    intros [r c] Hin. destruct (Hcells (r, c) (or_intror Hin)) as (Hs & u & Hu & Hum).
    split; [exact Hs|]. exists u. split; [|exact Hum]. simpl in *.
    rewrite getTile_setTile_other; [exact Hu|].
    destruct (decide (row = r)) as [->|]; [|auto].
    destruct (decide (col = c)) as [->|]; [|auto].
    contradiction.
Qed.

(** createEmptyBoard returns whenever its first [NUM_MINES] draws select
    distinct cells of the grid. *)
Lemma createEmptyBoard_returns (cells : list (Z * Z)) (rest : list Z) :
  List.NoDup cells -> length cells = NUM_MINES ->
  (forall rc, In rc cells -> inGrid (fst rc) (snd rc) = true) ->
  exists b, createEmptyBoard (drawsOf cells ++ rest) = Ok (b, rest).
Proof.
  intros Hnd Hlen Hin. unfold createEmptyBoard. fold emptyBoard.
  destruct (mineLoop_returns (fun _ _ => false) NUM_MINES rest cells 0 emptyBoard Hnd)
    as (b1 & Hloop); [lia| |].
  { intros rc Hrc. split; [reflexivity|].
    destruct (wf_getTile emptyBoard _ _ emptyBoard_wf (Hin rc Hrc)) as (t & Ht).
    exists t. split; [exact Ht|]. apply getTile_emptyBoard in Ht. subst t. reflexivity. }
  rewrite Hloop. cbn [bind].
  destruct (mineLoop_spec _ _ (length (drawsOf cells ++ rest)) _ _ _ _ _ (le_n _) Hloop)
    as (Hrel & _); [lia|].
  destruct (calculateAdjacentMines_correct b1) as (b2 & Hcalc & _).
  { eapply wf_grid_rel; [exact Hrel|exact emptyBoard_wf]. }
  rewrite Hcalc. cbn [bind]. eauto.
Qed.

(** What createEmptyBoard returns, whenever it returns: a well-formed
    board with [NUM_MINES] mines, no revealed and no flagged tile, and the
    adjacency counts of that mine layout. *)
Lemma createEmptyBoard_spec (rnd rnd' : list Z) (b : Board) :
  createEmptyBoard rnd = Ok (b, rnd') ->
  wf b /\
  countTiles isMine b = NUM_MINES /\
  (forall row col t, getTile b row col = Ok t ->
     isRevealed t = false /\ isFlagged t = false) /\
  (forall row col t, getTile b row col = Ok t -> isMine t = false ->
     adjacentMines t = mineNeighbours b row col).
Proof.
  unfold createEmptyBoard. fold emptyBoard. intros Hrun.
  apply bind_Ok in Hrun as ([b1 rnd1] & Hloop & Hrun).
  apply bind_Ok in Hrun as (b2 & Hcalc & Hrun). injection Hrun as <- <-.
  destruct (mineLoop_spec _ _ (length rnd) _ _ _ _ _ (le_n _) Hloop) as (Hrel1 & Hc1 & _);
    [lia|].
  assert (wf b1) as Hwf1 by (eapply wf_grid_rel; [exact Hrel1|exact emptyBoard_wf]).
  destruct (calculateAdjacentMines_correct b1 Hwf1) as (b2' & Hcalc' & Hwf2 & Hrel2 & Hadj).
  rewrite Hcalc in Hcalc'. injection Hcalc' as <-.
  split; [exact Hwf2|]. split; [|split; [|exact Hadj]].
  - rewrite <- (countTiles_rel_eq same_but_adjacent isMine b1 b2); [|
      intros x y (Hm & _); symmetry; exact Hm | exact Hrel2].
    change (countTiles isMine emptyBoard) with 0%nat in Hc1. lia.
  - intros row col t Hget.
    destruct (grid_rel_getTile_r _ _ _ _ _ _ Hrel2 Hget) as (t1 & Hget1 & _ & Hr & Hf).
    destruct (grid_rel_getTile_r _ _ _ _ _ _ Hrel1 Hget1) as (t0 & Hget0 & Hstep).
    apply getTile_emptyBoard in Hget0. subst t0.
    rewrite Hr, Hf. destruct Hstep as [->|(_ & ->)]; split; reflexivity.
Qed.

(** ** The game: reachable states and their invariant *)

Lemma getTile_In_concat (b : Board) (row col : Z) (t : Tile) :
  getTile b row col = Ok t -> In t (concat b).
Proof.
  intros Hget. apply getTile_Ok in Hget as (_ & _ & r & H1 & H2).
  apply in_concat. exists r.
  split; apply list_elem_of_In; eapply list_elem_of_lookup_2; eauto.
Qed.

Lemma In_concat_getTile (b : Board) (t : Tile) :
  In t (concat b) -> exists row col, getTile b row col = Ok t.
Proof.
  intros Hin. apply in_concat in Hin as (r & Hr & Ht).
  apply list_elem_of_In, list_elem_of_lookup in Hr as (i & Hi).
  apply list_elem_of_In, list_elem_of_lookup in Ht as (j & Hj).
  exists (Z.of_nat i), (Z.of_nat j). apply getTile_Ok.
  rewrite !Nat2Z.id. split; [lia|]. split; [lia|]. eauto.
Qed.

Lemma countTiles_zero (p : Tile -> bool) (b : Board) :
  (forall row col t, getTile b row col = Ok t -> p t = false) ->
  countTiles p b = 0%nat.
Proof.
  intros Hall. unfold countTiles.
  assert (forall t, In t (concat b) -> p t = false) as Hl.
  { intros t Hin. apply In_concat_getTile in Hin as (row & col & Hget). eauto. }
  induction (concat b) as [|x l IH]; simpl; [reflexivity|].
  rewrite (Hl x) by (left; reflexivity). apply IH.
  intros t Ht. apply Hl. right. exact Ht.
Qed.

(** The test of line 145 fails on every board that carries a mine. *)
Lemma pristine_no_mine (b : Board) :
  forallb (fun tile => negb (isMine tile) && negb (isRevealed tile)) (concat b) = true ->
  countTiles isMine b = 0%nat.
Proof.
  unfold countTiles. induction (concat b) as [|x l IH]; simpl; [reflexivity|].
  intros H. apply andb_true_iff in H as [Hx Hl].
  apply andb_true_iff in Hx as [Hm _]. apply negb_true_iff in Hm.
  rewrite Hm. auto.
Qed.

Lemma revealBoard_rel (b : Board) :
  grid_rel (fun t t' => t' = with_isRevealed true t) b (revealBoard b).
Proof.
  unfold grid_rel, revealBoard.
  induction b as [|r b IH]; simpl; constructor; [|exact IH].
  induction r; simpl; constructor; auto.
Qed.

Lemma revealBoard_keeps (b : Board) : grid_rel keeps_mine_flag b (revealBoard b).
Proof.
  eapply grid_rel_impl; [|apply revealBoard_rel].
  intros x y ->. split; reflexivity.
Qed.

Lemma reveal_step_keeps (b b' : Board) :
  grid_rel reveal_step b b' -> grid_rel keeps_mine_flag b b'.
Proof.
  apply grid_rel_impl. intros x y [->|(_ & _ & ->)]; split; reflexivity.
Qed.

Lemma keeps_mine_flag_trans (x y z : Tile) :
  keeps_mine_flag x y -> keeps_mine_flag y z -> keeps_mine_flag x z.
Proof. unfold keeps_mine_flag. intuition congruence. Qed.

(** A handler that replaces the board by one with the same mines and flags
    and leaves the flag counter alone keeps the invariant. *)
Lemma game_inv_board (g : Game) (b' : Board) (over won : bool) :
  game_inv g ->
  grid_rel keeps_mine_flag (board g) b' ->
  (over = false -> won = false -> no_revealed_flag b') ->
  game_inv (mkGame b' over won (flagsLeft g)).
Proof.
  intros (Hwf & Hmines & Hflags & Hpos & _) Hrel Hnrf.
  split; [|split; [|split; [|split]]]; simpl.
  - eapply wf_grid_rel; eauto.
  - rewrite <- Hmines. symmetry. eapply countTiles_rel_eq; [|exact Hrel].
    intros x y [Hm _]. symmetry. exact Hm.
  - rewrite <- Hflags. f_equal. f_equal. symmetry.
    eapply countTiles_rel_eq; [|exact Hrel].
    intros x y [_ Hf]. symmetry. exact Hf.
  - exact Hpos.
  - intros [Ho Hw]. simpl in Ho, Hw. auto.
Qed.

Lemma reveal_step_no_revealed_flag (b b' : Board) :
  grid_rel reveal_step b b' -> no_revealed_flag b -> no_revealed_flag b'.
Proof.
  intros Hrel Hb row col t' Hget' [Hr Hf].
  destruct (grid_rel_getTile_r _ _ _ _ _ _ Hrel Hget') as (t & Hget & Hstep).
  destruct Hstep as [->|(_ & Hf0 & ->)].
  - apply (Hb row col t Hget). auto.
  - simpl in Hf. congruence.
Qed.

Lemma handleTileClick_inv (rnd rnd' : list Z) (g g' : Game) (row col : Z) :
  game_inv g -> handleTileClick rnd g row col = Ok (g', rnd') -> game_inv g'.
Proof.
  intros Hinv Hrun. unfold handleTileClick in Hrun.
  destruct (isGameOver g || isGameWon g) eqn:Hterm.
  { injection Hrun as <- <-. exact Hinv. }
  apply orb_false_iff in Hterm as [Ho Hw].
  apply bind_Ok in Hrun as ([next rnd1] & Hfirst & Hrun).
  assert (isGameOver next = false /\ isGameWon next = false /\
          flagsLeft next = flagsLeft g) as (Hno & Hnw & Hnf).
  { destruct (forallb _ _).
    - apply bind_Ok in Hfirst as ([nb r1] & _ & Hfirst).
      apply bind_Ok in Hfirst as (nb2 & _ & Hfirst).
      injection Hfirst as <- <-. simpl. auto.
    - injection Hfirst as <- <-. auto. }
  apply bind_Ok in Hrun as (newBoard & Hreveal & Hrun). cbv zeta in Hrun.
  apply bind_Ok in Hrun as (t & Hget & Hrun).
  pose proof (revealTile_rel _ _ _ _ Hreveal) as Hrel.
  assert (grid_rel keeps_mine_flag (board g) (revealBoard newBoard)) as Hall.
  { eapply grid_rel_trans; [exact keeps_mine_flag_trans| |apply revealBoard_keeps].
    apply reveal_step_keeps, Hrel. }
  destruct (isMine t).
  - injection Hrun as <- <-. unfold setBoard, setIsGameOver. simpl.
    rewrite Hnf. apply game_inv_board; auto. discriminate.
  - destruct (checkWinCondition newBoard).
    + injection Hrun as <- <-. unfold setBoard, setIsGameWon. simpl.
      rewrite Hnf. apply game_inv_board; auto. discriminate.
    + injection Hrun as <- <-. unfold setBoard. simpl.
      rewrite Hnf. apply game_inv_board; auto using reveal_step_keeps.
      intros _ _. eapply reveal_step_no_revealed_flag; [exact Hrel|].
      destruct Hinv as (_ & _ & _ & _ & Hnrf). apply Hnrf. split; assumption.
Qed.

Lemma game_inv_flag (g : Game) (row col : Z) (t : Tile) (v : bool) (fl : Z) :
  game_inv g ->
  getTile (board g) row col = Ok t ->
  isRevealed t = false -> isFlagged t = negb v ->
  fl = flagsLeft g + (if v then -1 else 1) ->
  (v = true -> flagsLeft g > 0) ->
  game_inv (mkGame (setTile (board g) row col (with_isFlagged v t))
              (isGameOver g) (isGameWon g) fl).
Proof.
  intros (Hwf & Hmines & Hflags & Hpos & Hnrf) Hget Hr Hf -> Hbudget.
  split; [|split; [|split; [|split]]]; simpl.
  - eapply wf_grid_rel; [|exact Hwf].
    eapply (grid_rel_setTile (fun _ _ => True)); eauto.
  - pose proof (countTiles_setTile isMine _ row col t (with_isFlagged v t) Hget) as Hc.
    simpl in Hc. lia.
  - pose proof (countTiles_setTile isFlagged _ row col t (with_isFlagged v t) Hget) as Hc.
    simpl in Hc. rewrite Hf in Hc. destruct v; simpl in Hc; lia.
  - destruct v; [specialize (Hbudget eq_refl)|]; lia.
  - intros Hprog row' col' u Hu [Hur Huf].
    destruct (getTile_setTile _ _ _ _ _ _ _ _ Hget Hu) as [(_ & _ & ->)|(_ & Hu')].
    + simpl in Hur. congruence.
    + apply (Hnrf Hprog row' col' u Hu'). auto.
Qed.

Lemma handleTileRightClick_inv (g g' : Game) (row col : Z) :
  game_inv g -> handleTileRightClick g row col = Ok g' -> game_inv g'.
Proof.
  intros Hinv Hrun. unfold handleTileRightClick in Hrun.
  destruct (isGameOver g || isGameWon g); [injection Hrun as <-; exact Hinv|].
  rewrite copyRows_id in Hrun. cbv zeta in Hrun.
  apply bind_Ok in Hrun as (t & Hget & Hrun).
  destruct (isRevealed t) eqn:Hr; cbn [negb] in Hrun;
    [injection Hrun as <-; exact Hinv|].
  destruct (isFlagged t) eqn:Hf.
  - injection Hrun as <-. unfold setBoard, setFlagsLeft. simpl.
    apply (game_inv_flag g row col t false); auto. discriminate.
  - destruct (Z.gtb_spec (flagsLeft g) 0) as [Hgt|Hle].
    + injection Hrun as <-. unfold setBoard, setFlagsLeft. simpl.
      apply (game_inv_flag g row col t true); auto. intros _. lia.
    + injection Hrun as <-. destruct g. exact Hinv.
Qed.

Lemma initialGame_inv (rnd rnd' : list Z) (b : Board) (over won : bool) :
  createEmptyBoard rnd = Ok (b, rnd') ->
  game_inv (mkGame b over won INITIAL_FLAGS).
Proof.
  intros Hb. apply createEmptyBoard_spec in Hb as (Hwf & Hmines & Hcover & _).
  split; [exact Hwf|]. split; [exact Hmines|]. simpl.
  split; [|split].
  - rewrite (countTiles_zero isFlagged b); [reflexivity|].
    intros row col t Ht. apply (Hcover row col t Ht).
  - unfold INITIAL_FLAGS. lia.
  - intros _ row col t Ht [_ Hf].
    destruct (Hcover row col t Ht) as [_ Hf']. congruence.
Qed.

Lemma handleReset_inv (rnd rnd' : list Z) (g g' : Game) :
  handleReset rnd g = Ok (g', rnd') -> game_inv g'.
Proof.
  unfold handleReset. intros Hrun.
  apply bind_Ok in Hrun as ([b r1] & Hb & Hrun). injection Hrun as <- <-.
  unfold setFlagsLeft, setIsGameWon, setIsGameOver, setBoard. simpl.
  eapply initialGame_inv; eauto.
Qed.

(** The invariant of the reachable states. *)
Lemma reachable_inv (g : Game) : reachable g -> game_inv g.
Proof.
  induction 1 as [rnd rnd' b Hb|g g' rnd rnd' row col _ IH _ Hrun
                 |g g' row col _ IH _ Hrun|g g' rnd rnd' _ _ Hrun].
  - eapply initialGame_inv; eauto.
  - eapply handleTileClick_inv; eauto.
  - eapply handleTileRightClick_inv; eauto.
  - eapply handleReset_inv; eauto.
Qed.

(** ** Concrete games *)

Lemma sampleBoard_created : createEmptyBoard sampleDraws = Ok (sampleBoard, []).
Proof. vm_compute. reflexivity. Qed.

Lemma sampleGame_reachable : reachable sampleGame.
Proof. exact (reach_init sampleDraws [] sampleBoard sampleBoard_created). Qed.

Lemma reachable_rightClicks (cells : list (Z * Z)) :
  forall g g', reachable g ->
  Forall (fun rc => inGrid (fst rc) (snd rc) = true) cells ->
  rightClicks cells g = Ok g' -> reachable g'.
Proof.
  induction cells as [|[row col] cells IH]; simpl; intros g g' Hg Hcells Hrun.
  - injection Hrun as <-. exact Hg.
  - apply bind_Ok in Hrun as (g1 & H1 & Hrun).
    apply Forall_cons in Hcells as [Hin Hcells].
    eapply IH; [|exact Hcells|exact Hrun].
    eapply reach_flag; eauto.
Qed.

Lemma flaggedGame_reachable : reachable flaggedGame.
Proof.
  apply (reach_flag sampleGame flaggedGame 0 1 sampleGame_reachable); reflexivity.
Qed.

Lemma lostGame_reachable : reachable lostGame.
Proof.
  apply (reach_click flaggedGame lostGame [] [] 0 0 flaggedGame_reachable);
    [reflexivity|vm_compute; reflexivity].
Qed.

Lemma flaggedMineGame_reachable : reachable flaggedMineGame.
Proof.
  apply (reach_flag sampleGame flaggedMineGame 0 0 sampleGame_reachable); reflexivity.
Qed.

Lemma flagsSpentGame_reachable : reachable flagsSpentGame.
Proof.
  apply (reachable_rightClicks (map (fun col => (0, col)) (range 0 BOARD_SIZE))
           sampleGame flagsSpentGame sampleGame_reachable).
  - vm_compute. repeat constructor.
  - vm_compute. reflexivity.
Qed.

(** ** Board construction and the handlers *)




Lemma getTile_revealBoard (b : Board) (row col : Z) (t : Tile) :
  getTile b row col = Ok t ->
  getTile (revealBoard b) row col = Ok (with_isRevealed true t).
Proof.
  intros Hget.
  destruct (grid_rel_getTile_l _ _ _ _ _ _ (revealBoard_rel b) Hget) as (t' & Hget' & ->).
  exact Hget'.
Qed.







Lemma getTile_mine_not_pristine (b : Board) (row col : Z) (t : Tile) :
  getTile b row col = Ok t -> isMine t = true ->
  forallb (fun tile => negb (isMine tile) && negb (isRevealed tile)) (concat b) = false.
Proof.
  intros Hget Hmine.
  destruct (forallb _ (concat b)) eqn:Hall; [|reflexivity].
  rewrite forallb_forall in Hall.
  specialize (Hall t (getTile_In_concat _ _ _ _ Hget)).
  rewrite Hmine in Hall. discriminate.
Qed.

(** C10. In a game in progress a click on a tile that is flagged and is a
    mine loses the game: revealTile returns the board as it was, the
    clicked cell still holding the tile it held, and the handler sets
    [isGameOver] and installs the board of the render with every tile
    revealed.  In the installed board every cell of the board holds the
    tile it held with [isRevealed] set: [isRevealed] is [true] on every
    tile, [isMine], [isFlagged] and [adjacentMines] are kept, and no
    covered tile is left. *)
Theorem click_on_flagged_mine_loses (rnd : list Z) (g : Game) (row col : Z) (t : Tile) :
  isGameOver g = false -> isGameWon g = false ->
  getTile (board g) row col = Ok t ->
  isMine t = true -> isFlagged t = true ->
  revealTile (board g) row col = Ok (board g) /\
  handleTileClick rnd g row col =
    Ok (mkGame (revealBoard (board g)) true false (flagsLeft g), rnd) /\
  (forall row' col' t', getTile (board g) row' col' = Ok t' ->
     getTile (revealBoard (board g)) row' col' = Ok (with_isRevealed true t')) /\
  (forall row' col' t', getTile (board g) row' col' = Ok t' ->
     exists u, getTile (revealBoard (board g)) row' col' = Ok u /\
       isRevealed u = true /\ isMine u = isMine t' /\
       isFlagged u = isFlagged t' /\ adjacentMines u = adjacentMines t') /\
  (forall row' col' u, getTile (revealBoard (board g)) row' col' = Ok u ->
     isRevealed u = true /\ exists t', getTile (board g) row' col' = Ok t') /\
  length (revealBoard (board g)) = length (board g) /\
  countTiles unrevealed (revealBoard (board g)) = 0%nat.
Proof.
  intros Ho Hw Hget Hmine Hflag.
  assert (revealTile (board g) row col = Ok (board g)) as Hnoop.
  { apply (revealTile_guarded _ _ _ t Hget). rewrite Hflag. apply orb_true_r. }
  assert (forall row' col' u, getTile (revealBoard (board g)) row' col' = Ok u ->
            isRevealed u = true /\ exists t', getTile (board g) row' col' = Ok t')
    as Hall.
  { intros row' col' u Hu.
    destruct (grid_rel_getTile_r _ _ _ _ _ _ (revealBoard_rel (board g)) Hu)
      as (t' & Ht' & ->).
    split; [reflexivity|]. exists t'. exact Ht'. }
  split; [exact Hnoop|]. split; [|split; [|split; [|split; [|split]]]].
  - unfold handleTileClick. rewrite Ho, Hw. cbn [orb].
    rewrite (getTile_mine_not_pristine _ _ _ _ Hget Hmine). cbn [bind].
    rewrite Hnoop. cbn [bind]. cbv zeta. rewrite Hget. cbn [bind].
    rewrite Hmine. unfold setBoard, setIsGameOver. simpl. rewrite Hw. reflexivity.
  - intros row' col' t'. apply getTile_revealBoard.
  - intros row' col' t' Ht'. exists (with_isRevealed true t').
    split; [apply getTile_revealBoard; exact Ht'|]. repeat split; reflexivity.
  - exact Hall.
  - unfold revealBoard. apply length_map.
  - apply countTiles_zero. intros row' col' u Hu. unfold unrevealed.
    destruct (Hall row' col' u Hu) as (-> & _). reflexivity.
Qed.

Lemma click_on_flagged_mine_loses_witness :
  isGameOver flaggedMineGame = false /\ isGameWon flaggedMineGame = false /\
  getTile (board flaggedMineGame) 0 0 = Ok (mkTile true false true 0) /\
  countTiles unrevealed (board flaggedMineGame) = 100%nat /\
  revealTile (board flaggedMineGame) 0 0 = Ok (board flaggedMineGame) /\
  handleTileClick [] flaggedMineGame 0 0 =
    Ok (mkGame (revealBoard (board flaggedMineGame)) true false
          (flagsLeft flaggedMineGame), []) /\
  (forall row' col' t', getTile (board flaggedMineGame) row' col' = Ok t' ->
     getTile (revealBoard (board flaggedMineGame)) row' col' =
       Ok (with_isRevealed true t')) /\
  (forall row' col' t', getTile (board flaggedMineGame) row' col' = Ok t' ->
     exists u, getTile (revealBoard (board flaggedMineGame)) row' col' = Ok u /\
       isRevealed u = true /\ isMine u = isMine t' /\
       isFlagged u = isFlagged t' /\ adjacentMines u = adjacentMines t') /\
  (forall row' col' u,
     getTile (revealBoard (board flaggedMineGame)) row' col' = Ok u ->
     isRevealed u = true /\
     exists t', getTile (board flaggedMineGame) row' col' = Ok t') /\
  length (revealBoard (board flaggedMineGame)) = length (board flaggedMineGame) /\
  countTiles unrevealed (revealBoard (board flaggedMineGame)) = 0%nat.
Proof.
  split; [reflexivity|]. split; [reflexivity|]. split; [reflexivity|].
  split; [vm_compute; reflexivity|].
  apply (click_on_flagged_mine_loses [] flaggedMineGame 0 0 (mkTile true false true 0)).
  - reflexivity.
  - reflexivity.
  - reflexivity.
  - reflexivity.
  - reflexivity.
Defined.

(** ** The first click *)

(** No click changes where the mines and the flags are: the board that a
    run of handleTileClick installs is the board of the render it started
    from with more tiles revealed.  The board that lines 146-148 build is
    never the one installed. *)
Lemma handleTileClick_keeps_mines (rnd rnd' : list Z) (g g' : Game) (row col : Z) :
  handleTileClick rnd g row col = Ok (g', rnd') ->
  grid_rel keeps_mine_flag (board g) (board g').
Proof.
  intros Hrun. unfold handleTileClick in Hrun.
  destruct (isGameOver g || isGameWon g).
  { injection Hrun as <- <-. apply grid_rel_refl. intros t. split; reflexivity. }
  apply bind_Ok in Hrun as ([next rnd1] & _ & Hrun).
  apply bind_Ok in Hrun as (newBoard & Hreveal & Hrun). cbv zeta in Hrun.
  apply bind_Ok in Hrun as (t & Hget & Hrun).
  pose proof (reveal_step_keeps _ _ (revealTile_rel _ _ _ _ Hreveal)) as Hrel.
  assert (grid_rel keeps_mine_flag (board g) (revealBoard newBoard)) as Hall.
  { eapply grid_rel_trans; [exact keeps_mine_flag_trans|exact Hrel|].
    apply revealBoard_keeps. }
  destruct (isMine t); [injection Hrun as <- <-; exact Hall|].
  destruct (checkWinCondition newBoard); injection Hrun as <- <-; simpl; assumption.
Qed.

(** In a reachable state the test of line 145 is false: the board of every
    render carries [NUM_MINES] mines, those of createEmptyBoard. *)
Lemma reachable_not_pristine (g : Game) :
  reachable g ->
  forallb (fun tile => negb (isMine tile) && negb (isRevealed tile))
    (concat (board g)) = false.
Proof.
  intros Hreach. destruct (reachable_inv g Hreach) as (_ & Hmines & _).
  destruct (forallb _ _) eqn:Hall; [|reflexivity].
  apply pristine_no_mine in Hall. rewrite Hall in Hmines. discriminate.
Qed.

(** C3 fails on the code.  The first click of the sample game, a fresh
    game with nothing revealed, hits the mine of the corner and loses.  On
    a board without mines the handler does place fifteen mines away from
    the clicked cell, but it reveals the mine-free board of the current
    render and installs that one: every tile revealed and no mine. *)
Theorem first_click_unprotected :
  reachable sampleGame /\
  countTiles isRevealed (board sampleGame) = 0%nat /\
  handleTileClick [] sampleGame 0 0 =
    Ok (mkGame (revealBoard sampleBoard) true false INITIAL_FLAGS, []) /\
  (let* '(nb, rnd') := placeMines pristineDraws emptyBoard NUM_MINES 0 0 in
   let* nb := calculateAdjacentMines nb in Ok (nb, rnd')) = Ok (minedBoard, []) /\
  countTiles isMine minedBoard = 15%nat /\
  isMineAt minedBoard 0 0 = false /\
  handleTileClick pristineDraws (initialGame emptyBoard) 0 0 =
    Ok (mkGame (revealBoard emptyBoard) false false INITIAL_FLAGS, []) /\
  countTiles isMine (revealBoard emptyBoard) = 0%nat.
Proof.
  split; [exact sampleGame_reachable|]. repeat split; vm_compute; reflexivity.
Qed.

(** ** The functions on small inputs *)

Example getTile_outside :
  getTile emptyBoard (-1) 0 = Throw /\ getTile emptyBoard 0 10 = Throw /\
  getTile emptyBoard 9 9 = Ok emptyTile.
Proof. repeat split. Qed.

Example calculateAdjacentMines_twoMines :
  let b := okOr (calculateAdjacentMines twoMines) [] in
  map adjacentMines (concat (take 3 (map (take 3) b))) =
    [0; 2; 1;  2; 0; 1;  1; 1; 1]%nat /\
  countTiles isMine b = 2%nat.
Proof. vm_compute. split; reflexivity. Qed.

Example placeMines_skips_click :
  boardOf (placeMines [0; 0; 0; 0; 2; 3] emptyBoard 1 0 0) =
    setTile emptyBoard 2 3 (mkTile true false false 0) /\
  placeMines [0; 0; 0; 0] emptyBoard 1 0 0 = Diverge /\
  placeMines [0; 12] emptyBoard 1 0 0 = Throw.
Proof. vm_compute. repeat split. Qed.

Example revealTile_cascade_sample :
  let b := okOr (revealTile sampleBoard 9 5) [] in
  countTiles isRevealed b = 18%nat /\
  countTiles (fun t => isRevealed t && isMine t) b = 0%nat.
Proof. vm_compute. split; reflexivity. Qed.

Example checkWinCondition_sample :
  checkWinCondition sampleBoard = false /\
  checkWinCondition
    (map (map (fun t => if isMine t then t else with_isRevealed true t)) sampleBoard) = true /\
  checkWinCondition (revealBoard sampleBoard) = true.
Proof. vm_compute. repeat split. Qed.

(** ** The store model and the heap of tile objects *)

Lemma lookup_map {A B : Type} (f : A -> B) (l : list A) (i : nat) :
  map f l !! i = option_map f (l !! i).
Proof. revert i. induction l as [|x l IH]; intros [|i]; simpl; auto. Qed.

Lemma getTile_contents (h : Heap) (refs : RefBoard) (row col : Z) :
  getTile (contents h refs) row col =
  let* l := getRef refs row col in Ok (h l).
Proof.
  unfold getTile, getRef, index, contents.
  destruct (row <? 0); [reflexivity|].
  rewrite lookup_map. destruct (refs !! Z.to_nat row) as [r|]; simpl; [|reflexivity].
  destruct (col <? 0); [reflexivity|].
  rewrite lookup_map. destruct (r !! Z.to_nat col); reflexivity.
Qed.

(** When no reference occurs twice in a board, a reference has one cell. *)
Lemma owner_unique (refs : RefBoard) :
  NoDup (concat refs) ->
  forall i j i' j' rw rw' l,
  refs !! i = Some rw -> rw !! j = Some l ->
  refs !! i' = Some rw' -> rw' !! j' = Some l ->
  i = i' /\ j = j'.
Proof.
  induction refs as [|r refs IH]; intros Hnd i j i' j' rw rw' l Hi Hj Hi' Hj';
    [destruct i; discriminate|].
  simpl in Hnd. apply NoDup_app in Hnd as (Hr & Hsep & Hrest).
  assert (forall k rk jk, refs !! k = Some rk -> rk !! jk = Some l -> l ∈ concat refs)
    as Hin.
  { intros k rk jk Hk Hjk. apply list_elem_of_In, in_concat. exists rk.
    split; apply list_elem_of_In; eapply list_elem_of_lookup_2; eauto. }
  destruct i as [|i], i' as [|i']; simpl in Hi, Hi'.
  - injection Hi as <-. injection Hi' as <-.
    split; [reflexivity|]. exact (NoDup_lookup r j j' l Hr Hj Hj').
  - injection Hi as <-. exfalso.
    apply (Hsep l); [eapply list_elem_of_lookup_2; eauto|]. eapply Hin; eauto.
  - injection Hi' as <-. exfalso.
    apply (Hsep l); [eapply list_elem_of_lookup_2; eauto|]. eapply Hin; eauto.
  - destruct (IH Hrest i j i' j' rw rw' l Hi Hj Hi' Hj') as [-> ->]. auto.
Qed.

(** A field write to the object of a cell changes that cell of the store
    and no other. *)
Lemma contents_write (h : Heap) (refs : RefBoard) (row col : Z) (l : nat) (t : Tile) :
  NoDup (concat refs) -> getRef refs row col = Ok l ->
  contents (write h l t) refs = setTile (contents h refs) row col t.
Proof.
  intros Hnd Hget. unfold getRef in Hget.
  destruct (index refs row) as [rw|] eqn:Hrow; [|discriminate].
  destruct (index rw col) as [l'|] eqn:Hcol; [|discriminate].
  injection Hget as ->.
  apply index_Some in Hrow as [Hr Hrow], Hcol as [Hc Hcol].
  unfold setTile, contents.
  replace ((row <? 0) || (col <? 0)) with false by (symmetry; apply orb_false_iff; lia).
  apply list_eq. intros i.
  rewrite list_lookup_alter, !lookup_map.
  destruct (decide (Z.to_nat row = i)) as [<-|Hne].
  - rewrite Hrow. simpl. f_equal. apply list_eq. intros j.
    rewrite list_lookup_insert, !lookup_map, length_map.
    destruct (decide (Z.to_nat col = j /\ (Z.to_nat col < length rw)%nat)) as [[<- _]|Hno].
    + rewrite Hcol. simpl. unfold write. rewrite Nat.eqb_refl. reflexivity.
    + destruct (rw !! j) as [l'|] eqn:Hj; simpl; [|reflexivity].
      f_equal. unfold write. destruct (Nat.eqb_spec l' l) as [->|]; [|reflexivity].
      destruct (owner_unique refs Hnd _ _ _ _ _ _ _ Hrow Hcol Hrow Hj) as [_ <-].
      exfalso. apply Hno. split; [reflexivity|]. eapply lookup_lt_Some; eauto.
  - destruct (refs !! i) as [rw'|] eqn:Hi; simpl; [|reflexivity].
    f_equal. apply list_eq. intros j. rewrite !lookup_map.
    destruct (rw' !! j) as [l'|] eqn:Hj; simpl; [|reflexivity].
    f_equal. unfold write. destruct (Nat.eqb_spec l' l) as [->|]; [|reflexivity].
    destruct (owner_unique refs Hnd _ _ _ _ _ _ _ Hrow Hcol Hi Hj) as [Heq _].
    contradiction.
Qed.

Lemma forEach_sim {S T : Type} (R : S -> T -> Prop) (l : list Z)
    (f : Z -> S -> res S) (g : Z -> T -> res T) :
  (forall x s t, R s t -> res_rel R (f x s) (g x t)) ->
  forall s t, R s t -> res_rel R (forEach l f s) (forEach l g t).
Proof.
  intros Hfg. induction l as [|x l IH]; simpl; intros s t Hst; [exact Hst|].
  specialize (Hfg x s t Hst).
  destruct (f x s), (g x t); simpl in *; try contradiction; auto.
Qed.

Lemma revealTileH_S (fuel : nat) (refs : RefBoard) (row col : Z) (hs : Heap * Visits) :
  revealTileH (S fuel) refs row col hs =
  let* l := getRef refs row col in
  if isRevealed (fst hs l) || isFlagged (fst hs l) then Ok (refs, hs)
  else
    let hs1 := (write (fst hs) l (with_isRevealed true (fst hs l)), (row, col) :: snd hs) in
    if (adjacentMines (fst hs1 l) =? 0)%nat then
      let* hs' :=
        forEach (range (-1) 2) (fun i st =>
          forEach (range (-1) 2) (fun j st =>
            if (i =? 0) && (j =? 0) then Ok st
            else if inGrid (row + i) (col + j)
                 then let* r := revealTileH fuel refs (row + i) (col + j) st in
                      Ok (snd r)
                 else Ok st) st) hs1 in
      Ok (refs, hs')
    else Ok (refs, hs1).
Proof. simpl. rewrite map_id. reflexivity. Qed.

(** The flood fill over tile objects and the flood fill over the store
    have the same outcome, and leave the same tiles, on every board in
    which each cell owns its object. *)
Lemma revealTileH_sound (fuel : nat) :
  forall (refs : RefBoard) (row col : Z) (hs : Heap * Visits) (st : Board * Visits),
  NoDup (concat refs) -> shows refs hs st ->
  res_rel (fun r st' => fst r = refs /\ shows refs (snd r) st')
    (revealTileH fuel refs row col hs)
    (revealTile_fuel fuel (fst st) row col (snd st)).
Proof.
  induction fuel as [|fuel IH]; intros refs row col hs st Hnd [Hb Hv]; [exact I|].
  rewrite revealTileH_S, revealTile_fuel_S, Hb, getTile_contents.
  destruct (getRef refs row col) as [l| |] eqn:Hget; cbn [bind res_rel]; auto.
  destruct (isRevealed (fst hs l) || isFlagged (fst hs l)).
  { simpl. repeat split; auto. }
  cbv zeta. cbn [fst snd].
  assert (adjacentMines (write (fst hs) l (with_isRevealed true (fst hs l)) l) =
          adjacentMines (fst hs l)) as ->.
  { unfold write. rewrite Nat.eqb_refl. reflexivity. }
  set (hs1 := (write (fst hs) l (with_isRevealed true (fst hs l)), (row, col) :: snd hs)).
  set (st1 := (setTile (contents (fst hs) refs) row col (with_isRevealed true (fst hs l)),
               (row, col) :: snd st)).
  assert (shows refs hs1 st1) as H1.
  { split; simpl; [|congruence]. symmetry. apply contents_write; auto. }
  destruct (adjacentMines (fst hs l) =? 0)%nat; [|simpl; auto].
  pose proof (forEach_sim (shows refs) (range (-1) 2)
    (fun i st =>
       forEach (range (-1) 2) (fun j st =>
         if (i =? 0) && (j =? 0) then Ok st
         else if inGrid (row + i) (col + j)
              then let* r := revealTileH fuel refs (row + i) (col + j) st in Ok (snd r)
              else Ok st) st)
    (fun i st =>
       forEach (range (-1) 2) (fun j st =>
         if (i =? 0) && (j =? 0) then Ok st
         else if inGrid (row + i) (col + j)
              then revealTile_fuel fuel (fst st) (row + i) (col + j) (snd st)
              else Ok st) st)) as Hsim.
  match type of Hsim with ?P -> _ => assert P as Hbody end.
  { intros i s t Hs. apply forEach_sim; [|exact Hs].
    intros j u v Hu.
    destruct ((i =? 0) && (j =? 0)); [exact Hu|].
    destruct (inGrid (row + i) (col + j)); [|exact Hu].
    specialize (IH refs (row + i) (col + j) u v Hnd Hu).
    destruct (revealTileH fuel refs (row + i) (col + j) u) as [[r u']| |],
             (revealTile_fuel fuel (fst v) (row + i) (col + j) (snd v));
      simpl in *; try contradiction; auto.
    destruct IH as [_ IH]. exact IH. }
  specialize (Hsim Hbody hs1 st1 H1).
  destruct (forEach _ _ hs1), (forEach _ _ st1); simpl in *; try contradiction; auto.
Qed.

(** For the caller: the board returned has the references of the argument,
    and the store result is what both of them show in the final heap. *)
Lemma revealTileH_store (fuel : nat) (refs refs' : RefBoard) (row col : Z)
    (h h' : Heap) (vis' : Visits) :
  NoDup (concat refs) ->
  revealTileH fuel refs row col (h, []) = Ok (refs', (h', vis')) ->
  refs' = refs /\
  revealTile_fuel fuel (contents h refs) row col [] = Ok (contents h' refs, vis').
Proof.
  intros Hnd Hrun.
  pose proof (revealTileH_sound fuel refs row col (h, []) (contents h refs, []) Hnd
                (conj eq_refl eq_refl)) as Hsim.
  rewrite Hrun in Hsim. simpl in Hsim.
  destruct (revealTile_fuel fuel (contents h refs) row col []) as [[b' v']| |];
    simpl in Hsim; try contradiction.
  destruct Hsim as (Hrefs & Hb & Hv). simpl in *. subst. auto.
Qed.

(** The flood fill over tile objects on a heap with one fresh object per
    cell of the sample board agrees with the store model. *)
Example revealTileH_sample :
  let refs := map (fun r => map (fun c => Z.to_nat (10 * r + c)) (range 0 10)) (range 0 10) in
  let h := fun l => nth l (concat sampleBoard) emptyTile in
  contents h refs = sampleBoard /\
  match revealTileH 101 refs 9 5 (h, []) with
  | Ok (refs', (h', _)) => refs' = refs /\ Ok (contents h' refs) = revealTile sampleBoard 9 5
  | _ => False
  end.
Proof. vm_compute. repeat split. Qed.

(** * Further properties of the engine *)

(** ** placeMines *)

Lemma concat_length_rows (n : nat) (b : Board) :
  Forall (fun r => length r = n) b -> length (concat b) = (length b * n)%nat.
Proof.
  induction 1 as [|r b Hr _ IH]; simpl; [reflexivity|].
  rewrite length_app, Hr, IH. reflexivity.
Qed.

Lemma wf_tile_count (b : Board) :
  wf b -> length (concat b) = Z.to_nat (BOARD_SIZE * BOARD_SIZE).
Proof.
  intros [Hlen Hrows]. rewrite (concat_length_rows _ _ Hrows), Hlen. reflexivity.
Qed.

Lemma count_lt_length (p : Tile -> bool) (l : list Tile) (x : Tile) :
  In x l -> p x = false -> (length (List.filter p l) < length l)%nat.
Proof.
  induction l as [|y l IH]; simpl; intros Hin Hx; [contradiction|].
  pose proof (List.filter_length_le p l) as Hle.
  destruct Hin as [->|Hin].
  - rewrite Hx. lia.
  - specialize (IH Hin Hx). destruct (p y); simpl; lia.
Qed.

(** X1. When placeMines returns, exactly [numMines] more tiles are mines,
    the cell of the initial click holds the tile it held, the board has
    the shape it had, and every tile keeps its revealed mark, its flag and
    its adjacency count; a mine stays a mine. *)
Theorem placeMines_post (rnd rnd' : list Z) (b b' : Board) (numMines : nat)
    (row col : Z) :
  placeMines rnd b numMines row col = Ok (b', rnd') ->
  countTiles isMine b' = (countTiles isMine b + numMines)%nat /\
  getTile b' row col = getTile b row col /\
  (wf b -> wf b') /\
  forall r c t', getTile b' r c = Ok t' ->
    exists t, getTile b r c = Ok t /\
      isRevealed t' = isRevealed t /\ isFlagged t' = isFlagged t /\
      adjacentMines t' = adjacentMines t /\
      (isMine t = true -> isMine t' = true).
Proof.
  intros Hrun. destruct (placeMines_spec _ _ _ _ _ _ _ Hrun) as (Hrel & Hcount & Hclick).
  split; [exact Hcount|]. split; [exact Hclick|]. split.
  - intros Hwf. eapply wf_grid_rel; eauto.
  - intros r c t' Hget'.
    destruct (grid_rel_getTile_r _ _ _ _ _ _ Hrel Hget') as (t & Hget & Hstep).
    exists t. split; [exact Hget|].
    destruct Hstep as [->|(Hm & ->)]; simpl; auto.
Qed.

Lemma placeMines_post_witness :
  placeMines [0; 0; 2; 3; 2; 3; 4; 4] emptyBoard 2 0 0 =
    Ok (setTile (setTile emptyBoard 2 3 (mkTile true false false 0))
          4 4 (mkTile true false false 0), []) /\
  countTiles isMine
    (setTile (setTile emptyBoard 2 3 (mkTile true false false 0))
       4 4 (mkTile true false false 0)) = (countTiles isMine emptyBoard + 2)%nat.
Proof.
  split; [vm_compute; reflexivity|].
  apply (placeMines_post [0; 0; 2; 3; 2; 3; 4; 4] [] emptyBoard _ 2 0 0).
  vm_compute. reflexivity.
Defined.

(** X2. placeMines can return only if there is room: on a well-formed
    board whose initial-click cell is not a mine, a call that returns had
    fewer mines to place than there were other free cells.  With more mines
    asked for the loop of lines 51-60 never ends. *)
Theorem placeMines_needs_room (rnd rnd' : list Z) (b b' : Board) (numMines : nat)
    (row col : Z) (t : Tile) :
  wf b -> getTile b row col = Ok t -> isMine t = false ->
  placeMines rnd b numMines row col = Ok (b', rnd') ->
  (countTiles isMine b + numMines < Z.to_nat (BOARD_SIZE * BOARD_SIZE))%nat.
Proof.
  intros Hwf Hget Hmine Hrun.
  destruct (placeMines_spec _ _ _ _ _ _ _ Hrun) as (Hrel & Hcount & Hclick).
  rewrite <- Hcount, <- (wf_tile_count b') by (eapply wf_grid_rel; eauto).
  unfold countTiles. apply (count_lt_length isMine _ t); [|exact Hmine].
  apply (getTile_In_concat b' row col). rewrite Hclick. exact Hget.
Qed.

Lemma placeMines_needs_room_witness :
  wf emptyBoard /\ getTile emptyBoard 0 0 = Ok emptyTile /\
  (countTiles isMine emptyBoard + 2 < Z.to_nat (BOARD_SIZE * BOARD_SIZE))%nat.
Proof.
  assert (wf emptyBoard) as H by (split; [reflexivity|repeat constructor]).
  split; [exact H|]. split; [reflexivity|].
  apply (placeMines_needs_room [0; 0; 2; 3; 2; 3; 4; 4] [] emptyBoard
           (setTile (setTile emptyBoard 2 3 (mkTile true false false 0))
              4 4 (mkTile true false false 0)) 2 0 0 emptyTile).
  - exact H.
  - reflexivity.
  - reflexivity.
  - vm_compute. reflexivity.
Defined.

(** ** revealTile *)

(** X3. revealTile only ever sets [isRevealed]: the board it returns has
    the shape of its argument, every tile in it is the tile that was there
    or that tile marked revealed, so [isMine], [isFlagged] and
    [adjacentMines] never change, a revealed tile stays revealed, and the
    number of covered tiles does not grow. *)
Theorem revealTile_only_reveals (b b' : Board) (row col : Z) :
  revealTile b row col = Ok b' ->
  length b' = length b /\
  (forall r c t, getTile b r c = Ok t ->
     exists t', getTile b' r c = Ok t' /\
       (t' = t \/ (isRevealed t = false /\ t' = with_isRevealed true t))) /\
  (forall r c t', getTile b' r c = Ok t' -> exists t, getTile b r c = Ok t) /\
  (countTiles unrevealed b' <= countTiles unrevealed b)%nat.
Proof.
  intros Hrun. pose proof (revealTile_rel _ _ _ _ Hrun) as Hrel.
  split; [symmetry; exact (Forall2_length _ _ _ Hrel)|]. split; [|split].
  - intros r c t Hget.
    destruct (grid_rel_getTile_l _ _ _ _ _ _ Hrel Hget) as (t' & Hget' & Hstep).
    exists t'. split; [exact Hget'|]. destruct Hstep as [->|(Hr & _ & ->)]; auto.
  - intros r c t' Hget'.
    destruct (grid_rel_getTile_r _ _ _ _ _ _ Hrel Hget') as (t & Hget & _). eauto.
  - apply unrevealed_reveal_le, Hrel.
Qed.

Lemma revealTile_only_reveals_witness :
  revealTile loneMine 4 4 = Ok (setTile loneMine 4 4 (mkTile true true false 1)) /\
  length (setTile loneMine 4 4 (mkTile true true false 1)) = length loneMine.
Proof.
  split; [vm_compute; reflexivity|].
  apply (revealTile_only_reveals loneMine _ 4 4). vm_compute. reflexivity.
Defined.

(** X4. Revealing twice is revealing once: on a well-formed board and a
    cell of the grid revealTile returns, and a second call on its result
    at the same cell returns that result unchanged. *)
Theorem revealTile_twice (b : Board) (row col : Z) :
  wf b -> inGrid row col = true ->
  exists b', revealTile b row col = Ok b' /\ revealTile b' row col = Ok b'.
Proof.
  intros Hwf Hin.
  destruct (revealTile_fuel_enough b row col [] Hwf Hin) as ([b' vis] & Hall).
  specialize (Hall (S (countTiles unrevealed b)) (Nat.lt_succ_diag_r _)).
  exists b'. split; [unfold revealTile; rewrite Hall; reflexivity|].
  destruct (revealTile_fuel_settles _ _ _ _ _ _ Hall) as (u & Hu & Hset).
  exact (revealTile_guarded b' row col u Hu Hset).
Qed.

Lemma revealTile_twice_witness :
  wf sampleBoard /\ inGrid 9 5 = true /\
  exists b', revealTile sampleBoard 9 5 = Ok b' /\ revealTile b' 9 5 = Ok b'.
Proof.
  assert (wf sampleBoard) as H by (split; [reflexivity|repeat constructor]).
  split; [exact H|]. split; [reflexivity|].
  apply (revealTile_twice sampleBoard 9 5 H). reflexivity.
Defined.

(** X5. revealTile never runs forever, on a board of any shape.  On a
    well-formed board it raises a TypeError exactly when the cell lies
    outside the grid (line 93 indexes [undefined] when the row is out of
    range, line 95 reads a field of [undefined] when only the column is)
    and returns a board otherwise. *)
Theorem revealTile_outcome (b : Board) (row col : Z) :
  wf b ->
  revealTile b row col <> Diverge /\
  (inGrid row col = false -> revealTile b row col = Throw) /\
  (inGrid row col = true -> exists b', revealTile b row col = Ok b').
Proof.
  intros Hwf. split; [apply revealTile_not_Diverge|]. split.
  - intros Hout. unfold revealTile. rewrite revealTile_fuel_S.
    pose proof (getTile_not_Diverge b row col) as Hnd.
    destruct (getTile b row col) as [t| |] eqn:Hget; [|reflexivity|contradiction].
    rewrite (getTile_wf_inGrid _ _ _ _ Hwf Hget) in Hout. discriminate.
  - intros Hin.
    destruct (revealTile_fuel_enough b row col [] Hwf Hin) as ([b' vis] & Hall).
    exists b'. unfold revealTile. rewrite Hall by lia. reflexivity.
Qed.

Lemma revealTile_outcome_witness :
  wf emptyBoard /\
  revealTile emptyBoard 0 10 <> Diverge /\
  (inGrid 0 10 = false -> revealTile emptyBoard 0 10 = Throw) /\
  (inGrid 0 10 = true -> exists b', revealTile emptyBoard 0 10 = Ok b').
Proof.
  assert (wf emptyBoard) as H by (split; [reflexivity|repeat constructor]).
  split; [exact H|]. apply (revealTile_outcome emptyBoard 0 10 H).
Defined.

(** ** The flood fill and the mines *)

Lemma safe_step_refl (t : Tile) : safe_step t t.
Proof. left. reflexivity. Qed.

Lemma safe_step_trans (x y z : Tile) :
  safe_step x y -> safe_step y z -> safe_step x z.
Proof.
  intros [->|(Hm & ->)] [->|(Hm' & ->)]; unfold safe_step; auto.
Qed.

Lemma safe_step_keeps (b b' : Board) :
  grid_rel safe_step b b' -> grid_rel keeps_layout b b'.
Proof.
  apply grid_rel_impl. intros x y [->|(_ & ->)]; split; reflexivity.
Qed.

Lemma isMineAt_keep (R : Tile -> Tile -> Prop) (b b' : Board) (row col : Z) :
  (forall x y, R x y -> isMine y = isMine x) ->
  grid_rel R b b' -> isMineAt b' row col = isMineAt b row col.
Proof.
  intros HR Hrel. unfold isMineAt.
  destruct (getTile b' row col) as [t'| |] eqn:Hget'.
  - destruct (grid_rel_getTile_r _ _ _ _ _ _ Hrel Hget') as (t & -> & Ht). auto.
  - destruct (getTile b row col) as [t| |] eqn:Hget; try reflexivity.
    destruct (grid_rel_getTile_l _ _ _ _ _ _ Hrel Hget) as (t' & Ht' & _).
    congruence.
  - exfalso. eapply getTile_not_Diverge; eauto.
Qed.

Lemma mineNeighbours_keep (R : Tile -> Tile -> Prop) (b b' : Board) (row col : Z) :
  (forall x y, R x y -> isMine y = isMine x) ->
  grid_rel R b b' -> mineNeighbours b' row col = mineNeighbours b row col.
Proof.
  intros HR Hrel. unfold mineNeighbours. f_equal.
  apply List.filter_ext. intros rc. eapply isMineAt_keep; eauto.
Qed.

Lemma countsCorrect_keep (b b' : Board) :
  grid_rel keeps_layout b b' -> countsCorrect b -> countsCorrect b'.
Proof.
  intros Hrel Hb row col t' Hget' Hmine.
  destruct (grid_rel_getTile_r _ _ _ _ _ _ Hrel Hget') as (t & Hget & Hm & Ha).
  rewrite Ha, (mineNeighbours_keep keeps_layout b b'); [|intros x y [H _]; exact H|exact Hrel].
  apply Hb; [exact Hget|congruence].
Qed.

Lemma filter_none {A : Type} (p : A -> bool) (l : list A) :
  length (List.filter p l) = 0%nat -> forall x, In x l -> p x = false.
Proof.
  induction l as [|y l IH]; simpl; intros Hlen x Hin; [contradiction|].
  destruct (p y) eqn:Hy; [discriminate|].
  destruct Hin as [->|Hin]; auto.
Qed.

(** Around a tile with no mine neighbour there is no mine. *)
Lemma zero_count_neighbours (b : Board) (row col i j : Z) :
  mineNeighbours b row col = 0%nat ->
  In i (range (-1) 2) -> In j (range (-1) 2) ->
  (i =? 0) && (j =? 0) = false ->
  isMineAt b (row + i) (col + j) = false.
Proof.
  intros Hzero Hi Hj Hne. unfold mineNeighbours in Hzero.
  apply (filter_none _ _ Hzero (row + i, col + j)).
  apply In_range in Hi, Hj. unfold neighbours. cbn [map fst snd].
  assert (i = -1 \/ i = 0 \/ i = 1) as [-> | [-> | ->]] by lia;
    assert (j = -1 \/ j = 0 \/ j = 1) as [-> | [-> | ->]] by lia;
    try discriminate; simpl; tauto.
Qed.

Lemma getTile_isMineAt (b : Board) (row col : Z) (t : Tile) :
  getTile b row col = Ok t -> isMineAt b row col = isMine t.
Proof. intros H. unfold isMineAt. rewrite H. reflexivity. Qed.

(** A fill that starts on a safe tile of a board with correct counts
    reveals safe tiles only. *)
Lemma revealTile_fuel_safe (fuel : nat) :
  forall (b : Board) (row col : Z) (vis : Visits) (st : Board * Visits),
  countsCorrect b -> isMineAt b row col = false ->
  revealTile_fuel fuel b row col vis = Ok st ->
  grid_rel safe_step b (fst st).
Proof.
  induction fuel as [|fuel IH]; intros b row col vis st Hcounts Hsafe Hrun;
    [discriminate|].
  rewrite revealTile_fuel_S in Hrun.
  apply bind_Ok in Hrun as (t & Hget & Hrun).
  rewrite (getTile_isMineAt _ _ _ _ Hget) in Hsafe.
  destruct (isRevealed t || isFlagged t).
  { injection Hrun as <-. apply grid_rel_refl, safe_step_refl. }
  cbv zeta in Hrun.
  set (st0 := (setTile b row col (with_isRevealed true t), (row, col) :: vis)) in *.
  assert (grid_rel safe_step b (fst st0)) as H0.
  { eapply grid_rel_setTile; eauto using safe_step_refl. right. auto. }
  destruct (Nat.eqb_spec (adjacentMines t) 0) as [Hzero|];
    [|injection Hrun as <-; exact H0].
  rewrite (Hcounts row col t Hget Hsafe) in Hzero.
  revert Hrun. apply (forEach_inv (fun s => grid_rel safe_step b (fst s))); [|exact H0].
  intros i s s' Hi Hs.
  apply (forEach_inv (fun s => grid_rel safe_step b (fst s))); [|exact Hs].
  intros j u u' Hj Hu Hbody.
  destruct ((i =? 0) && (j =? 0)) eqn:Hij; [injection Hbody as <-; exact Hu|].
  destruct (inGrid (row + i) (col + j)); [|injection Hbody as <-; exact Hu].
  eapply grid_rel_trans; [exact safe_step_trans|exact Hu|].
  eapply IH; [| |exact Hbody].
  - eapply countsCorrect_keep; [apply safe_step_keeps; exact Hu|exact Hcounts].
  - rewrite (isMineAt_keep safe_step b (fst u)); [| |exact Hu].
    + apply zero_count_neighbours; auto.
    + intros x y [->|(_ & ->)]; reflexivity.
Qed.

(** X6. The flood fill never uncovers a mine: on a board whose non-mine
    tiles carry their true neighbour counts, revealTile called on a tile
    that is not a mine returns every mine tile exactly as it was. *)
Theorem revealTile_reveals_no_mine (b b' : Board) (row col : Z) (t : Tile) :
  countsCorrect b ->
  getTile b row col = Ok t -> isMine t = false ->
  revealTile b row col = Ok b' ->
  forall r c u, getTile b r c = Ok u -> isMine u = true -> getTile b' r c = Ok u.
Proof.
  intros Hcounts Hget Hmine Hrun r c u Hu Humine.
  apply revealTile_Ok in Hrun as (vis & Hrun).
  apply revealTile_fuel_safe in Hrun; [|exact Hcounts|].
  - destruct (grid_rel_getTile_l _ _ _ _ _ _ Hrun Hu) as (u' & Hu' & Hstep).
    simpl in Hu'. destruct Hstep as [->|(Hno & _)]; [exact Hu'|congruence].
  - rewrite (getTile_isMineAt _ _ _ _ Hget). exact Hmine.
Qed.

Lemma sampleBoard_countsCorrect : countsCorrect sampleBoard.
Proof.
  destruct (createEmptyBoard_spec _ _ _ sampleBoard_created) as (_ & _ & _ & H).
  exact H.
Qed.

Lemma revealTile_reveals_no_mine_witness :
  countsCorrect sampleBoard /\
  getTile sampleBoard 9 5 = Ok (mkTile false false false 0) /\
  getTile sampleBoard 9 9 = Ok (mkTile true false false 0) /\
  getTile (okOr (revealTile sampleBoard 9 5) []) 9 9 = Ok (mkTile true false false 0).
Proof.
  split; [exact sampleBoard_countsCorrect|].
  split; [reflexivity|]. split; [reflexivity|].
  apply (revealTile_reveals_no_mine sampleBoard _ 9 5 (mkTile false false false 0)
           sampleBoard_countsCorrect).
  - reflexivity.
  - reflexivity.
  - vm_compute. reflexivity.
  - reflexivity.
  - reflexivity.
Defined.

(** ** Winning and losing *)

Lemma count_both_le {A : Type} (p q : A -> bool) (l : list A) :
  (length (List.filter (fun x => p x && q x) l) <= length (List.filter q l))%nat.
Proof.
  induction l as [|x l IH]; simpl; [lia|].
  destruct (p x), (q x); simpl; lia.
Qed.

Lemma count_both_eq {A : Type} (p q : A -> bool) (l : list A) :
  length (List.filter (fun x => p x && q x) l) = length (List.filter q l) <->
  forall x, In x l -> q x = true -> p x = true.
Proof.
  induction l as [|x l IH]; simpl; [tauto|].
  pose proof (count_both_le p q l) as Hle.
  destruct (p x) eqn:Hp, (q x) eqn:Hq; simpl; split; intros H.
  - intros y [<-|Hy] Hqy; [exact Hp|]. apply IH; [lia|exact Hy|exact Hqy].
  - f_equal. apply IH. intros y Hy. apply H. right. exact Hy.
  - intros y [<-|Hy] Hqy; [congruence|]. apply IH; assumption.
  - apply IH. intros y Hy. apply H. right. exact Hy.
  - lia.
  - specialize (H x (or_introl eq_refl) Hq). congruence.
  - intros y [<-|Hy] Hqy; [congruence|]. apply IH; assumption.
  - apply IH. intros y Hy. apply H. right. exact Hy.
Qed.

Lemma count_complement {A : Type} (p : A -> bool) (l : list A) :
  (length (List.filter p l) + length (List.filter (fun x => negb (p x)) l) =
   length l)%nat.
Proof.
  induction l as [|x l IH]; simpl; [reflexivity|].
  destruct (p x); simpl; lia.
Qed.

(** The count of line 118 reaches its target when no safe tile is left
    covered. *)
Lemma checkWinCondition_all_safe (b : Board) :
  wf b -> countTiles isMine b = NUM_MINES ->
  (checkWinCondition b = true <->
   forall row col t, getTile b row col = Ok t -> isMine t = false ->
     isRevealed t = true).
Proof.
  intros Hwf Hmines.
  pose proof (count_complement isMine (concat b)) as Hcompl.
  rewrite (wf_tile_count b Hwf) in Hcompl. unfold countTiles in Hmines.
  rewrite Hmines in Hcompl.
  assert (checkWinCondition b = true <->
          length (List.filter (fun x => isRevealed x && negb (isMine x)) (concat b)) =
          length (List.filter (fun x => negb (isMine x)) (concat b))) as ->.
  { unfold checkWinCondition. rewrite Z.eqb_eq.
    unfold BOARD_SIZE, NUM_MINES in *. lia. }
  rewrite (count_both_eq isRevealed (fun x => negb (isMine x))). split.
  - intros H row col t Hget Hmine. apply H.
    + eapply getTile_In_concat; eauto.
    + rewrite Hmine. reflexivity.
  - intros H t Hin Hsafe. apply In_concat_getTile in Hin as (row & col & Hget).
    apply (H row col t Hget). apply negb_true_iff. exact Hsafe.
Qed.

(** X7. On a well-formed board with [NUM_MINES] mines the win condition
    holds exactly when every tile that is not a mine is revealed. *)
Theorem win_iff_all_safe_revealed (b : Board) :
  wf b -> countTiles isMine b = NUM_MINES ->
  (checkWinCondition b = true <->
   forall row col t, getTile b row col = Ok t -> isMine t = false ->
     isRevealed t = true).
Proof. exact (checkWinCondition_all_safe b). Qed.

Lemma win_iff_all_safe_revealed_witness :
  wf sampleBoard /\ countTiles isMine sampleBoard = NUM_MINES /\
  (checkWinCondition sampleBoard = true <->
   forall row col t, getTile sampleBoard row col = Ok t -> isMine t = false ->
     isRevealed t = true).
Proof.
  assert (wf sampleBoard) as H by (split; [reflexivity|repeat constructor]).
  split; [exact H|]. split; [reflexivity|].
  apply (win_iff_all_safe_revealed sampleBoard H). reflexivity.
Defined.




(** ** calculateAdjacentMines, tile by tile *)

Lemma calc_step_refl (t : Tile) : calc_step t t.
Proof.
  destruct (isMine t) eqn:Hm; [left; auto|right].
  split; [exact Hm|]. exists (adjacentMines t). destruct t; reflexivity.
Qed.

Lemma calc_step_trans (x y z : Tile) :
  calc_step x y -> calc_step y z -> calc_step x z.
Proof.
  intros [(Hm & ->)|(Hm & n & ->)] [(Hm' & ->)|(Hm' & n' & ->)];
    unfold calc_step; simpl in *; try congruence; eauto.
Qed.

Lemma calcCell_step (row col : Z) (nb nb' : Board) :
  calcCell row col nb = Ok nb' -> grid_rel calc_step nb nb'.
Proof.
  unfold calcCell. intros Hrun.
  apply bind_Ok in Hrun as (t & Hget & Hrun).
  destruct (isMine t) eqn:Hm; cbn [negb] in Hrun.
  - injection Hrun as <-. apply grid_rel_refl, calc_step_refl.
  - apply bind_Ok in Hrun as (n & _ & Hrun). injection Hrun as <-.
    eapply grid_rel_setTile; eauto using calc_step_refl.
    right. eauto.
Qed.

Lemma calculateAdjacentMines_steps (b b' : Board) :
  calculateAdjacentMines b = Ok b' -> grid_rel calc_step b b'.
Proof.
  rewrite calculateAdjacentMines_eq.
  apply (forEach_inv (fun s => grid_rel calc_step b s));
    [|apply grid_rel_refl, calc_step_refl].
  intros row s s' _ Hs.
  apply (forEach_inv (fun s => grid_rel calc_step b s)); [|exact Hs].
  intros col u u' _ Hu Hcell.
  eapply grid_rel_trans; [exact calc_step_trans|exact Hu|].
  eapply calcCell_step; eauto.
Qed.

(** X9. calculateAdjacentMines tile by tile: on a well-formed board it
    returns the board in which every mine is the very tile it was, with
    whatever count it carried, and every other tile is the tile it was
    with [adjacentMines] replaced by the number of its neighbouring
    mines. *)
Theorem calculateAdjacentMines_exact (b : Board) :
  wf b ->
  exists b',
    calculateAdjacentMines b = Ok b' /\
    forall row col t, getTile b row col = Ok t ->
      getTile b' row col =
        Ok (if isMine t then t
            else with_adjacentMines (mineNeighbours b row col) t).
Proof.
  intros Hwf.
  destruct (calculateAdjacentMines_correct b Hwf) as (b' & Hrun & Hwf' & Hrel & Hadj).
  exists b'. split; [exact Hrun|].
  intros row col t Hget.
  pose proof (calculateAdjacentMines_steps _ _ Hrun) as Hsteps.
  destruct (grid_rel_getTile_l _ _ _ _ _ _ Hsteps Hget) as (t' & Hget' & Hstep).
  rewrite Hget'. f_equal.
  destruct Hstep as [(Hm & ->)|(Hm & n & ->)]; rewrite Hm; [reflexivity|].
  specialize (Hadj row col _ Hget' Hm). simpl in Hadj. subst n.
  rewrite (mineNeighbours_rel b b' row col Hrel). reflexivity.
Qed.

Lemma calculateAdjacentMines_exact_witness :
  wf twoMines /\
  exists b',
    calculateAdjacentMines twoMines = Ok b' /\
    forall row col t, getTile twoMines row col = Ok t ->
      getTile b' row col =
        Ok (if isMine t then t
            else with_adjacentMines (mineNeighbours twoMines row col) t).
Proof.
  assert (wf twoMines) as H by (split; [reflexivity|repeat constructor]).
  split; [exact H|]. apply (calculateAdjacentMines_exact twoMines H).
Defined.

Lemma row_ext (R : Tile -> Tile -> Prop) (r r' : list Tile) :
  Forall2 R r r' ->
  (forall j t t', r !! j = Some t -> r' !! j = Some t' -> t = t') -> r = r'.
Proof.
  induction 1 as [|t t' r r' _ _ IH]; intros Hall; [reflexivity|].
  f_equal; [apply (Hall 0%nat); reflexivity|].
  apply IH. intros j. apply (Hall (S j)).
Qed.

(** Two boards of one shape that hold the same tile at every cell are
    the same board. *)
Lemma board_ext (R : Tile -> Tile -> Prop) (b b' : Board) :
  grid_rel R b b' ->
  (forall row col t t', getTile b row col = Ok t -> getTile b' row col = Ok t' ->
     t = t') ->
  b = b'.
Proof.
  unfold grid_rel. intros Hrel Hall.
  assert (forall i j r r' t t', b !! i = Some r -> b' !! i = Some r' ->
            r !! j = Some t -> r' !! j = Some t' -> t = t') as Hcells.
  { intros i j r r' t t' Hi Hi' Hj Hj'.
    apply (Hall (Z.of_nat i) (Z.of_nat j)); apply getTile_Ok;
      rewrite !Nat2Z.id; (split; [lia|]); (split; [lia|]); eauto. }
  clear Hall. induction Hrel as [|r r' b b' Hr _ IH]; [reflexivity|].
  f_equal.
  - apply (row_ext R _ _ Hr). intros j t t' Hj Hj'.
    exact (Hcells 0%nat j r r' t t' eq_refl eq_refl Hj Hj').
  - apply IH. intros i j. apply (Hcells (S i) j).
Qed.

(** X10. calculateAdjacentMines is idempotent: on a well-formed board it
    returns a board on which a second pass changes nothing. *)
Theorem calculateAdjacentMines_idempotent (b : Board) :
  wf b ->
  exists b', calculateAdjacentMines b = Ok b' /\ calculateAdjacentMines b' = Ok b'.
Proof.
  intros Hwf.
  destruct (calculateAdjacentMines_correct b Hwf) as (b' & Hrun & Hwf' & Hrel & Hadj).
  destruct (calculateAdjacentMines_correct b' Hwf') as (b'' & Hrun' & _ & Hrel' & Hadj').
  exists b'. split; [exact Hrun|]. rewrite Hrun'. f_equal. symmetry.
  pose proof (calculateAdjacentMines_steps _ _ Hrun') as Hsteps.
  apply (board_ext calc_step _ _ Hsteps).
  intros row col t t' Hget Hget'.
  destruct (grid_rel_getTile_l _ _ _ _ _ _ Hsteps Hget) as (u & Hu & Hstep).
  assert (u = t') as -> by congruence.
  destruct Hstep as [(_ & ->)|(Hm & n & ->)]; [reflexivity|].
  specialize (Hadj row col t Hget Hm).
  specialize (Hadj' row col _ Hget' Hm). simpl in Hadj'. subst n.
  rewrite (mineNeighbours_rel b' b'' row col Hrel'), <- Hadj.
  destruct t; reflexivity.
Qed.

Lemma calculateAdjacentMines_idempotent_witness :
  wf twoMines /\
  exists b', calculateAdjacentMines twoMines = Ok b' /\
             calculateAdjacentMines b' = Ok b'.
Proof.
  assert (wf twoMines) as H by (split; [reflexivity|repeat constructor]).
  split; [exact H|]. apply (calculateAdjacentMines_idempotent twoMines H).
Defined.

(** ** What every reachable game satisfies *)

Lemma checkWinCondition_covered (b : Board) :
  (forall row col t, getTile b row col = Ok t -> isRevealed t = false) ->
  checkWinCondition b = false.
Proof.
  intros Hcov. unfold checkWinCondition.
  change (length (List.filter (fun tile => isRevealed tile && negb (isMine tile)) (concat b)))
    with (countTiles (fun tile => isRevealed tile && negb (isMine tile)) b).
  rewrite countTiles_zero; [reflexivity|].
  intros row col t Ht. rewrite (Hcov row col t Ht). reflexivity.
Qed.

Lemma fresh_play_inv (rnd rnd' : list Z) (b : Board) (fl : Z) :
  createEmptyBoard rnd = Ok (b, rnd') -> play_inv (mkGame b false false fl).
Proof.
  intros Hb. apply createEmptyBoard_spec in Hb as (_ & _ & Hcover & Hcounts).
  split; [exact Hcounts|]. split; [discriminate|]. split.
  - intros _. split.
    + intros row col t Ht _. apply (Hcover row col t Ht).
    + apply checkWinCondition_covered. intros row col t Ht. apply (Hcover row col t Ht).
  - simpl. intros [H|H]; discriminate.
Qed.

(** The click handler in a state in progress whose board carries a mine
    or a revealed tile: the three ways it ends. *)
Lemma handleTileClick_cases (rnd rnd' : list Z) (g g' : Game) (row col : Z) :
  isGameOver g = false -> isGameWon g = false ->
  forallb (fun tile => negb (isMine tile) && negb (isRevealed tile))
    (concat (board g)) = false ->
  handleTileClick rnd g row col = Ok (g', rnd') ->
  exists newBoard t,
    revealTile (board g) row col = Ok newBoard /\
    getTile newBoard row col = Ok t /\
    rnd' = rnd /\
    g' = if isMine t then mkGame (revealBoard newBoard) true false (flagsLeft g)
         else if checkWinCondition newBoard
              then mkGame (revealBoard newBoard) false true (flagsLeft g)
              else mkGame newBoard false false (flagsLeft g).
Proof.
  intros Ho Hw Hnp Hrun. unfold handleTileClick in Hrun.
  rewrite Ho, Hw, Hnp in Hrun. cbn [orb bind] in Hrun.
  apply bind_Ok in Hrun as (newBoard & Hrev & Hrun). cbv zeta in Hrun.
  apply bind_Ok in Hrun as (t & Hget & Hrun).
  exists newBoard, t. split; [exact Hrev|]. split; [exact Hget|].
  unfold setBoard, setIsGameOver, setIsGameWon in Hrun. simpl in Hrun.
  rewrite Ho, Hw in Hrun.
  destruct (isMine t); [injection Hrun as <- <-; auto|].
  destruct (checkWinCondition newBoard); injection Hrun as <- <-; auto.
Qed.

Lemma revealBoard_all_revealed (b : Board) : all_revealed (revealBoard b).
Proof.
  intros row col t Hget.
  destruct (grid_rel_getTile_r _ _ _ _ _ _ (revealBoard_rel b) Hget) as (u & _ & ->).
  reflexivity.
Qed.

Lemma revealBoard_keeps_layout (b : Board) : grid_rel keeps_layout b (revealBoard b).
Proof.
  eapply grid_rel_impl; [|apply revealBoard_rel].
  intros x y ->. split; reflexivity.
Qed.

Lemma reveal_step_keeps_layout (b b' : Board) :
  grid_rel reveal_step b b' -> grid_rel keeps_layout b b'.
Proof.
  apply grid_rel_impl. intros x y [->|(_ & _ & ->)]; split; reflexivity.
Qed.

Lemma keeps_layout_trans (x y z : Tile) :
  keeps_layout x y -> keeps_layout y z -> keeps_layout x z.
Proof. unfold keeps_layout. intuition congruence. Qed.

Lemma safe_step_no_mine_revealed (b b' : Board) :
  grid_rel safe_step b b' -> no_mine_revealed b -> no_mine_revealed b'.
Proof.
  intros Hrel Hb row col t' Hget' Hmine.
  destruct (grid_rel_getTile_r _ _ _ _ _ _ Hrel Hget') as (t & Hget & Hstep).
  destruct Hstep as [->|(Hno & ->)]; [eauto|].
  simpl in Hmine. congruence.
Qed.

Lemma handleTileClick_play_inv (rnd rnd' : list Z) (g g' : Game) (row col : Z) :
  game_inv g -> play_inv g ->
  handleTileClick rnd g row col = Ok (g', rnd') -> play_inv g'.
Proof.
  intros (_ & Hmines & _) Hinv Hrun.
  destruct (isGameOver g || isGameWon g) eqn:Hterm.
  { unfold handleTileClick in Hrun. rewrite Hterm in Hrun.
    injection Hrun as <- <-. exact Hinv. }
  apply orb_false_iff in Hterm as [Ho Hw].
  assert (forallb (fun tile => negb (isMine tile) && negb (isRevealed tile))
            (concat (board g)) = false) as Hnp.
  { destruct (forallb _ _) eqn:Hall; [|reflexivity].
    apply pristine_no_mine in Hall. rewrite Hall in Hmines. discriminate. }
  destruct (handleTileClick_cases _ _ _ _ _ _ Ho Hw Hnp Hrun)
    as (newBoard & t & Hrev & Hget & _ & ->).
  destruct Hinv as (Hcounts & _ & Hprog & _).
  destruct (Hprog (conj Ho Hw)) as (Hnomine & _).
  pose proof (revealTile_rel _ _ _ _ Hrev) as Hrel.
  assert (countsCorrect newBoard) as Hcounts'.
  { eapply countsCorrect_keep; [apply reveal_step_keeps_layout; exact Hrel|exact Hcounts]. }
  assert (countsCorrect (revealBoard newBoard)) as Hcounts''.
  { eapply countsCorrect_keep; [apply revealBoard_keeps_layout|exact Hcounts']. }
  destruct (isMine t) eqn:Hmine.
  - split; [exact Hcounts''|]. split; [reflexivity|]. split.
    + intros [Hover _]. discriminate.
    + intros _. apply revealBoard_all_revealed.
  - assert (no_mine_revealed newBoard) as Hnomine'.
    { destruct (grid_rel_getTile_r _ _ _ _ _ _ Hrel Hget) as (t0 & Hget0 & Hstep).
      assert (isMine t0 = false) as Hmine0
        by (destruct Hstep as [->|(_ & _ & ->)]; exact Hmine).
      apply revealTile_Ok in Hrev as (vis & Hfuel).
      apply revealTile_fuel_safe in Hfuel; [|exact Hcounts|].
      - eapply safe_step_no_mine_revealed; eauto.
      - rewrite (getTile_isMineAt _ _ _ _ Hget0). exact Hmine0. }
    destruct (checkWinCondition newBoard) eqn:Hwin.
    + split; [exact Hcounts''|]. split; [discriminate|]. split.
      * intros [_ Hwon]. discriminate.
      * intros _. apply revealBoard_all_revealed.
    + split; [exact Hcounts'|]. split; [discriminate|]. split.
      * intros _. split; [exact Hnomine'|exact Hwin].
      * simpl. intros [H|H]; discriminate.
Qed.

(** A right click changes flags only and leaves the status alone. *)
Lemma handleTileRightClick_same_but_flag (g g' : Game) (row col : Z) :
  handleTileRightClick g row col = Ok g' ->
  grid_rel same_but_flag (board g) (board g') /\
  isGameOver g' = isGameOver g /\ isGameWon g' = isGameWon g.
Proof.
  assert (forall t, same_but_flag t t) as Hrefl by (intros t; repeat split).
  unfold handleTileRightClick. intros Hrun.
  destruct (isGameOver g || isGameWon g);
    [injection Hrun as <-; split; [apply grid_rel_refl; exact Hrefl|auto]|].
  rewrite copyRows_id in Hrun. cbv zeta in Hrun.
  apply bind_Ok in Hrun as (t & Hget & Hrun).
  destruct (isRevealed t); cbn [negb] in Hrun;
    [injection Hrun as <-; split; [apply grid_rel_refl; exact Hrefl|auto]|].
  destruct (isFlagged t).
  - injection Hrun as <-. simpl. split; [|auto].
    eapply grid_rel_setTile; eauto. repeat split.
  - destruct (flagsLeft g >? 0); injection Hrun as <-; simpl; (split; [|auto]).
    + eapply grid_rel_setTile; eauto. repeat split.
    + apply grid_rel_refl; exact Hrefl.
Qed.

Lemma same_but_flag_play_inv (g : Game) (b' : Board) (fl : Z) :
  grid_rel same_but_flag (board g) b' -> play_inv g ->
  play_inv (mkGame b' (isGameOver g) (isGameWon g) fl).
Proof.
  intros Hrel (Hcounts & Hnot_both & Hprog & Hterm).
  split; [|split; [exact Hnot_both|split]]; simpl.
  - eapply countsCorrect_keep; [|exact Hcounts].
    eapply grid_rel_impl; [|exact Hrel]. intros x y (Hm & _ & Ha). split; assumption.
  - intros Hp. destruct (Hprog Hp) as (Hnomine & Hwin). split.
    + intros row col t' Hget' Hmine.
      destruct (grid_rel_getTile_r _ _ _ _ _ _ Hrel Hget') as (t & Hget & Hm & Hr & _).
      rewrite Hr. apply (Hnomine row col t Hget). congruence.
    + rewrite <- Hwin. unfold checkWinCondition. f_equal. f_equal. symmetry.
      eapply count_rel_eq; [|apply grid_rel_concat; exact Hrel].
      intros x y (Hm & Hr & _). rewrite Hm, Hr. reflexivity.
  - intros Hfin row col t' Hget'.
    destruct (grid_rel_getTile_r _ _ _ _ _ _ Hrel Hget') as (t & Hget & _ & Hr & _).
    rewrite Hr. apply (Hterm Hfin row col t Hget).
Qed.

Lemma reachable_play_inv (g : Game) : reachable g -> play_inv g.
Proof.
  induction 1 as [rnd rnd' b Hb|g g' rnd rnd' row col Hreach IH _ Hrun
                 |g g' row col _ IH _ Hrun|g g' rnd rnd' _ _ Hrun].
  - eapply fresh_play_inv; eauto.
  - eapply handleTileClick_play_inv; eauto using reachable_inv.
  - destruct (handleTileRightClick_same_but_flag _ _ _ _ Hrun) as (Hrel & Ho & Hw).
    pose proof (same_but_flag_play_inv g (board g') (flagsLeft g') Hrel IH) as H.
    rewrite <- Ho, <- Hw in H. destruct g'. exact H.
  - unfold handleReset in Hrun.
    apply bind_Ok in Hrun as ([b r1] & Hb & Hrun). injection Hrun as <- <-.
    unfold setFlagsLeft, setIsGameWon, setIsGameOver, setBoard. simpl.
    eapply fresh_play_inv; eauto.
Qed.

(** X11. In every reachable state of a game in progress no mine is
    revealed, the win condition does not hold, and so some tile that is
    not a mine is still covered. *)
Theorem in_progress_shows_no_mine (g : Game) :
  reachable g -> isGameOver g = false -> isGameWon g = false ->
  (forall row col t, getTile (board g) row col = Ok t -> isMine t = true ->
     isRevealed t = false) /\
  checkWinCondition (board g) = false /\
  ~ (forall row col t, getTile (board g) row col = Ok t -> isMine t = false ->
       isRevealed t = true).
Proof.
  intros Hreach Ho Hw.
  destruct (reachable_play_inv g Hreach) as (_ & _ & Hprog & _).
  destruct (Hprog (conj Ho Hw)) as (Hnomine & Hwin).
  destruct (reachable_inv g Hreach) as (Hwf & Hmines & _).
  split; [exact Hnomine|]. split; [exact Hwin|].
  intros Hall. apply (checkWinCondition_all_safe _ Hwf Hmines) in Hall. congruence.
Qed.

Lemma in_progress_shows_no_mine_witness :
  reachable flaggedGame /\
  isGameOver flaggedGame = false /\ isGameWon flaggedGame = false /\
  checkWinCondition (board flaggedGame) = false.
Proof.
  split; [exact flaggedGame_reachable|]. split; [reflexivity|]. split; [reflexivity|].
  apply (in_progress_shows_no_mine flaggedGame flaggedGame_reachable); reflexivity.
Defined.

(** X12. In every reachable state of a finished game, lost or won, every
    tile of the board is revealed; and no reachable game is both lost and
    won. *)
Theorem finished_game_shows_all (g : Game) :
  reachable g -> isGameOver g = true \/ isGameWon g = true ->
  (forall row col t, getTile (board g) row col = Ok t -> isRevealed t = true) /\
  ~ (isGameOver g = true /\ isGameWon g = true).
Proof.
  intros Hreach Hfin.
  destruct (reachable_play_inv g Hreach) as (_ & Hnot_both & _ & Hterm).
  split; [exact (Hterm Hfin)|].
  intros [Ho Hw]. rewrite (Hnot_both Ho) in Hw. discriminate.
Qed.

Lemma finished_game_shows_all_witness :
  reachable lostGame /\ isGameOver lostGame = true /\
  (forall row col t, getTile (board lostGame) row col = Ok t -> isRevealed t = true) /\
  ~ (isGameOver lostGame = true /\ isGameWon lostGame = true).
Proof.
  split; [exact lostGame_reachable|]. split; [reflexivity|].
  apply (finished_game_shows_all lostGame lostGame_reachable).
  left. reflexivity.
Defined.

(** X13. The board of every reachable state is well formed, carries
    exactly [NUM_MINES] mines, and every tile of it that is not a mine
    carries the number of mines around it: no click, right click or reset
    leaves a stale count behind. *)
Theorem reachable_board_layout (g : Game) :
  reachable g ->
  wf (board g) /\
  countTiles isMine (board g) = NUM_MINES /\
  forall row col t, getTile (board g) row col = Ok t -> isMine t = false ->
    adjacentMines t = mineNeighbours (board g) row col.
Proof.
  intros Hreach.
  destruct (reachable_inv g Hreach) as (Hwf & Hmines & _).
  destruct (reachable_play_inv g Hreach) as (Hcounts & _).
  auto.
Qed.

Lemma reachable_board_layout_witness :
  reachable lostGame /\ wf (board lostGame) /\
  countTiles isMine (board lostGame) = NUM_MINES /\
  forall row col t, getTile (board lostGame) row col = Ok t -> isMine t = false ->
    adjacentMines t = mineNeighbours (board lostGame) row col.
Proof.
  split; [exact lostGame_reachable|].
  apply (reachable_board_layout lostGame lostGame_reachable).
Defined.

(** X14. In every reachable state the flag counter is [INITIAL_FLAGS]
    minus the number of flagged tiles, and lies between 0 and
    [INITIAL_FLAGS]. *)
Theorem flagsLeft_counts_flags (g : Game) :
  reachable g ->
  flagsLeft g = INITIAL_FLAGS - Z.of_nat (countTiles isFlagged (board g)) /\
  0 <= flagsLeft g <= INITIAL_FLAGS.
Proof.
  intros Hreach. destruct (reachable_inv g Hreach) as (_ & _ & Hflags & Hpos & _).
  lia.
Qed.

Lemma flagsLeft_counts_flags_witness :
  reachable flagsSpentGame /\
  flagsLeft flagsSpentGame =
    INITIAL_FLAGS - Z.of_nat (countTiles isFlagged (board flagsSpentGame)) /\
  0 <= flagsLeft flagsSpentGame <= INITIAL_FLAGS.
Proof.
  split; [exact flagsSpentGame_reachable|].
  apply (flagsLeft_counts_flags flagsSpentGame flagsSpentGame_reachable).
Defined.

Lemma reachable_not_pristine' (g : Game) :
  game_inv g ->
  forallb (fun tile => negb (isMine tile) && negb (isRevealed tile))
    (concat (board g)) = false.
Proof.
  intros (_ & Hmines & _).
  destruct (forallb _ _) eqn:Hall; [|reflexivity].
  apply pristine_no_mine in Hall. rewrite Hall in Hmines. discriminate.
Qed.

(** X15. In a reachable state a click on a cell of the grid always
    returns: it raises no TypeError, does not loop, and draws nothing from
    the random source. *)
Theorem handleTileClick_returns (rnd : list Z) (g : Game) (row col : Z) :
  reachable g -> inGrid row col = true ->
  exists g', handleTileClick rnd g row col = Ok (g', rnd).
Proof.
  intros Hreach Hin. pose proof (reachable_inv g Hreach) as Hinv.
  pose proof (reachable_not_pristine' g Hinv) as Hnp.
  destruct Hinv as (Hwf & _).
  unfold handleTileClick.
  destruct (isGameOver g || isGameWon g); [eauto|].
  rewrite Hnp. cbn [bind].
  destruct (revealTile_fuel_enough (board g) row col [] Hwf Hin) as ([b' vis] & Hall).
  specialize (Hall (S (countTiles unrevealed (board g))) (Nat.lt_succ_diag_r _)).
  assert (revealTile (board g) row col = Ok b') as Hrev
    by (unfold revealTile; rewrite Hall; reflexivity).
  rewrite Hrev. cbn [bind]. cbv zeta.
  assert (wf b') as Hwf' by (eapply wf_grid_rel; [eapply revealTile_rel; eauto|exact Hwf]).
  destruct (wf_getTile b' row col Hwf' Hin) as (t & ->). cbn [bind].
  destruct (isMine t); [eauto|]. destruct (checkWinCondition b'); eauto.
Qed.

Lemma handleTileClick_returns_witness :
  reachable flaggedGame /\ inGrid 3 7 = true /\
  exists g', handleTileClick [4; 2] flaggedGame 3 7 = Ok (g', [4; 2]).
Proof.
  split; [exact flaggedGame_reachable|]. split; [reflexivity|].
  apply (handleTileClick_returns [4; 2] flaggedGame 3 7 flaggedGame_reachable).
  reflexivity.
Defined.

(** X16. In a reachable state of a game in progress a click on a tile that
    is not a mine never loses and never uncovers a mine: the handler
    installs the board that revealTile returns, and exactly when that
    board meets the win condition it sets [isGameWon] and installs the
    board with every tile revealed instead. *)
Theorem click_on_safe_tile (rnd : list Z) (g : Game) (row col : Z) (t : Tile) :
  reachable g -> isGameOver g = false -> isGameWon g = false ->
  getTile (board g) row col = Ok t -> isMine t = false ->
  exists newBoard,
    revealTile (board g) row col = Ok newBoard /\
    (forall r c u, getTile newBoard r c = Ok u -> isMine u = true ->
       isRevealed u = false) /\
    handleTileClick rnd g row col =
      Ok (mkGame (if checkWinCondition newBoard then revealBoard newBoard else newBoard)
            false (checkWinCondition newBoard) (flagsLeft g), rnd).
Proof.
  intros Hreach Ho Hw Hget Hmine.
  pose proof (reachable_inv g Hreach) as Hinv.
  pose proof (reachable_not_pristine' g Hinv) as Hnp.
  destruct Hinv as (Hwf & _).
  destruct (reachable_play_inv g Hreach) as (Hcounts & _ & Hprog & _).
  destruct (Hprog (conj Ho Hw)) as (Hnomine & _).
  pose proof (getTile_wf_inGrid _ _ _ _ Hwf Hget) as Hin.
  destruct (revealTile_fuel_enough (board g) row col [] Hwf Hin) as ([b' vis] & Hall).
  specialize (Hall (S (countTiles unrevealed (board g))) (Nat.lt_succ_diag_r _)).
  assert (revealTile (board g) row col = Ok b') as Hrev
    by (unfold revealTile; rewrite Hall; reflexivity).
  pose proof (revealTile_rel _ _ _ _ Hrev) as Hrel.
  exists b'. split; [exact Hrev|]. split.
  - apply revealTile_fuel_safe in Hall; [|exact Hcounts|].
    + exact (safe_step_no_mine_revealed _ _ Hall Hnomine).
    + rewrite (getTile_isMineAt _ _ _ _ Hget). exact Hmine.
  - destruct (grid_rel_getTile_l _ _ _ _ _ _ Hrel Hget) as (t' & Hget' & Hstep).
    assert (isMine t' = false) as Hmine'
      by (destruct Hstep as [->|(_ & _ & ->)]; exact Hmine).
    unfold handleTileClick. rewrite Ho, Hw, Hnp. cbn [orb bind].
    rewrite Hrev. cbn [bind]. cbv zeta. rewrite Hget'. cbn [bind]. rewrite Hmine'.
    unfold setBoard, setIsGameWon. simpl. rewrite Ho, Hw.
    destruct (checkWinCondition b'); reflexivity.
Qed.

Lemma click_on_safe_tile_witness :
  reachable sampleGame /\
  isGameOver sampleGame = false /\ isGameWon sampleGame = false /\
  getTile (board sampleGame) 9 5 = Ok (mkTile false false false 0) /\
  exists newBoard,
    revealTile (board sampleGame) 9 5 = Ok newBoard /\
    (forall r c u, getTile newBoard r c = Ok u -> isMine u = true ->
       isRevealed u = false) /\
    handleTileClick [] sampleGame 9 5 =
      Ok (mkGame (if checkWinCondition newBoard then revealBoard newBoard else newBoard)
            false (checkWinCondition newBoard) (flagsLeft sampleGame), []).
Proof.
  split; [exact sampleGame_reachable|].
  split; [reflexivity|]. split; [reflexivity|]. split; [reflexivity|].
  apply (click_on_safe_tile [] sampleGame 9 5 (mkTile false false false 0)
           sampleGame_reachable); reflexivity.
Defined.

(** X17. In a reachable state of a game in progress a click on a tile
    that is already revealed, or on a flagged tile that is not a mine,
    changes nothing at all. *)
Theorem click_without_effect (rnd : list Z) (g : Game) (row col : Z) (t : Tile) :
  reachable g -> isGameOver g = false -> isGameWon g = false ->
  getTile (board g) row col = Ok t ->
  isRevealed t = true \/ (isFlagged t = true /\ isMine t = false) ->
  handleTileClick rnd g row col = Ok (g, rnd).
Proof.
  intros Hreach Ho Hw Hget Hcase.
  pose proof (reachable_not_pristine' g (reachable_inv g Hreach)) as Hnp.
  destruct (reachable_play_inv g Hreach) as (_ & _ & Hprog & _).
  destruct (Hprog (conj Ho Hw)) as (Hnomine & Hwin).
  assert (isMine t = false) as Hmine.
  { destruct Hcase as [Hr|[_ Hm]]; [|exact Hm].
    destruct (isMine t) eqn:Hm; [|reflexivity].
    rewrite (Hnomine row col t Hget Hm) in Hr. discriminate. }
  assert (revealTile (board g) row col = Ok (board g)) as Hrev.
  { apply (revealTile_guarded _ _ _ t Hget).
    destruct Hcase as [->|[-> _]]; [reflexivity|apply orb_true_r]. }
  unfold handleTileClick. rewrite Ho, Hw, Hnp. cbn [orb bind].
  rewrite Hrev. cbn [bind]. cbv zeta. rewrite Hget. cbn [bind].
  rewrite Hmine, Hwin. destruct g. reflexivity.
Qed.

Lemma click_without_effect_witness :
  reachable flaggedGame /\
  isGameOver flaggedGame = false /\ isGameWon flaggedGame = false /\
  getTile (board flaggedGame) 0 1 = Ok (mkTile false false true 1) /\
  handleTileClick [] flaggedGame 0 1 = Ok (flaggedGame, []).
Proof.
  split; [exact flaggedGame_reachable|].
  split; [reflexivity|]. split; [reflexivity|]. split; [reflexivity|].
  apply (click_without_effect [] flaggedGame 0 1 (mkTile false false true 1)
           flaggedGame_reachable); try reflexivity.
  right. split; reflexivity.
Defined.

(** ** Flags *)

Lemma setTile_back (b : Board) (row col : Z) (t t1 : Tile) :
  getTile b row col = Ok t -> setTile (setTile b row col t1) row col t = b.
Proof.
  intros Hget.
  pose proof (getTile_setTile_same b row col t t1 Hget) as Hget1.
  assert (grid_rel (fun _ _ => True) (setTile (setTile b row col t1) row col t) b) as Hrel.
  { apply Forall2_flip. eapply Forall2_impl.
    - eapply (grid_rel_trans (fun _ _ => True)); [auto| |].
      + eapply grid_rel_setTile; eauto.
      + eapply grid_rel_setTile; eauto.
    - intros r r' Hr. apply Forall2_flip. eapply Forall2_impl; [exact Hr|]. auto. }
  apply (board_ext _ _ _ Hrel).
  intros r c u u' Hu Hu'.
  destruct (getTile_setTile _ _ _ _ _ _ _ _ Hget1 Hu) as [(-> & -> & ->)|(Hne & Hu1)].
  - congruence.
  - rewrite getTile_setTile_other in Hu1 by exact Hne. congruence.
Qed.

(** X18. Two right clicks on the same covered tile undo each other: in a
    game in progress, when the tile is flagged and the counter is not
    negative, or the tile is unflagged and a flag is left, the second
    right click returns exactly the state before the first, board and
    counter. *)
Theorem right_click_twice (g : Game) (row col : Z) (t : Tile) :
  isGameOver g = false -> isGameWon g = false ->
  getTile (board g) row col = Ok t -> isRevealed t = false ->
  (isFlagged t = true /\ 0 <= flagsLeft g) \/ (isFlagged t = false /\ 0 < flagsLeft g) ->
  exists g1,
    handleTileRightClick g row col = Ok g1 /\
    getTile (board g1) row col = Ok (with_isFlagged (negb (isFlagged t)) t) /\
    handleTileRightClick g1 row col = Ok g.
Proof.
  intros Ho Hw Hget Hr Hcase.
  unfold handleTileRightClick at 1. rewrite Ho, Hw, copyRows_id, Hget.
  cbn [orb bind]. cbv zeta. rewrite Hr. cbn [negb].
  destruct Hcase as [[Hf Hpos]|[Hf Hpos]]; rewrite Hf.
  - eexists. split; [reflexivity|]. cbn [board negb].
    pose proof (getTile_setTile_same _ _ _ _ (with_isFlagged false t) Hget) as Hget1.
    split; [exact Hget1|].
    unfold handleTileRightClick. cbn [isGameOver isGameWon board flagsLeft setBoard setFlagsLeft].
    rewrite Ho, Hw, copyRows_id, Hget1. cbn [orb bind]. cbv zeta.
    cbn [isRevealed isFlagged with_isFlagged]. rewrite Hr. cbn [negb].
    destruct (Z.gtb_spec (flagsLeft g + 1) 0); [|lia].
    unfold setBoard, setFlagsLeft. cbn [isGameOver isGameWon board flagsLeft].
    rewrite Ho, Hw.
    replace (with_isFlagged true (with_isFlagged false t)) with t
      by (destruct t; simpl in *; subst; reflexivity).
    rewrite (setTile_back _ _ _ _ _ Hget).
    replace (flagsLeft g + 1 - 1) with (flagsLeft g) by lia.
    destruct g; simpl in *; subst; reflexivity.
  - destruct (Z.gtb_spec (flagsLeft g) 0); [|lia].
    eexists. split; [reflexivity|]. cbn [board negb].
    pose proof (getTile_setTile_same _ _ _ _ (with_isFlagged true t) Hget) as Hget1.
    split; [exact Hget1|].
    unfold handleTileRightClick. cbn [isGameOver isGameWon board flagsLeft setBoard setFlagsLeft].
    rewrite Ho, Hw, copyRows_id, Hget1. cbn [orb bind]. cbv zeta.
    cbn [isRevealed isFlagged with_isFlagged]. rewrite Hr. cbn [negb].
    unfold setBoard, setFlagsLeft. cbn [isGameOver isGameWon board flagsLeft].
    rewrite Ho, Hw.
    replace (with_isFlagged false (with_isFlagged true t)) with t
      by (destruct t; simpl in *; subst; reflexivity).
    rewrite (setTile_back _ _ _ _ _ Hget).
    replace (flagsLeft g - 1 + 1) with (flagsLeft g) by lia.
    destruct g; simpl in *; subst; reflexivity.
Qed.

Lemma right_click_twice_witness :
  isGameOver sampleGame = false /\ isGameWon sampleGame = false /\
  getTile (board sampleGame) 0 1 = Ok (mkTile false false false 1) /\
  exists g1,
    handleTileRightClick sampleGame 0 1 = Ok g1 /\
    getTile (board g1) 0 1 =
      Ok (with_isFlagged (negb (isFlagged (mkTile false false false 1)))
            (mkTile false false false 1)) /\
    handleTileRightClick g1 0 1 = Ok sampleGame.
Proof.
  split; [reflexivity|]. split; [reflexivity|]. split; [reflexivity|].
  apply (right_click_twice sampleGame 0 1 (mkTile false false false 1)).
  - reflexivity.
  - reflexivity.
  - reflexivity.
  - reflexivity.
  - right. split; [reflexivity|]. vm_compute. reflexivity.
Defined.

(** ** What the grid draws (lines 245-306) *)

(** X19. A covered tile is drawn from its flag alone: two covered tiles
    with the same flag have the same children and the same class map,
    whatever their [isMine] and [adjacentMines] are.  The grid shows
    nothing of a tile before it is revealed. *)
Theorem covered_tile_hides_content (t t' : Tile) (over won : bool) :
  isRevealed t = false -> isRevealed t' = false -> isFlagged t' = isFlagged t ->
  tileChildren t' = tileChildren t /\
  tileClasses t' over won = tileClasses t over won /\
  ~ In NBomb (tileChildren t) /\
  (forall m n, ~ In (NCount m n) (tileChildren t)).
Proof.
  intros Hr Hr' Hf. unfold tileChildren, tileClasses. rewrite Hr, Hr', Hf.
  split; [reflexivity|]. split; [reflexivity|]. cbn [negb andb]. split.
  - intros [H|[H|[]]]; [discriminate|]. destruct (isFlagged t); discriminate.
  - intros m n [H|[H|[]]]; [discriminate|]. destruct (isFlagged t); discriminate.
Qed.

Lemma covered_tile_hides_content_witness :
  tileChildren (mkTile false false true 3) = tileChildren (mkTile true false true 0) /\
  tileClasses (mkTile false false true 3) false false =
    tileClasses (mkTile true false true 0) false false /\
  ~ In NBomb (tileChildren (mkTile true false true 0)) /\
  (forall m n, ~ In (NCount m n) (tileChildren (mkTile true false true 0))).
Proof.
  apply (covered_tile_hides_content (mkTile true false true 0)
           (mkTile false false true 3) false false); reflexivity.
Defined.

(** X20. Every tile in every state gets exactly one of the two cursor
    classes and at least one background class; a tile that is revealed and
    flagged, as after the end of a game, gets the revealed and the flag
    background at once and draws its content, not the flag icon. *)
Theorem tile_classes_cover (t : Tile) (over won : bool) :
  (In "cursor-pointer"%string (enabled (tileClasses t over won)) <->
   ~ In "cursor-not-allowed"%string (enabled (tileClasses t over won))) /\
  (In "bg-gray-300 dark:bg-gray-700"%string (enabled (tileClasses t over won)) \/
   In "bg-gray-200 dark:bg-gray-800"%string (enabled (tileClasses t over won)) \/
   In "bg-yellow-400 dark:bg-yellow-600"%string (enabled (tileClasses t over won))) /\
  (isRevealed t && isFlagged t = true ->
   In "bg-gray-200 dark:bg-gray-800"%string (enabled (tileClasses t over won)) /\
   In "bg-yellow-400 dark:bg-yellow-600"%string (enabled (tileClasses t over won)) /\
   ~ In NFlag (tileChildren t)).
Proof.
  unfold enabled, tileClasses, tileChildren.
  destruct (isRevealed t), (isFlagged t), (isMine t), over, won,
    (0 <? adjacentMines t)%nat; simpl; intuition congruence.
Qed.

Lemma enabled_countColours (n : nat) :
  (1 <= n <= 8)%nat -> length (enabled (countColours n)) = 1%nat.
Proof.
  intros Hn.
  assert (n = 1 \/ n = 2 \/ n = 3 \/ n = 4 \/ n = 5 \/ n = 6 \/ n = 7 \/ n = 8)%nat
    as H by lia.
  repeat (destruct H as [->|H]; [reflexivity|]). subst n. reflexivity.
Qed.

Lemma mineNeighbours_le_8 (b : Board) (row col : Z) :
  (mineNeighbours b row col <= 8)%nat.
Proof.
  unfold mineNeighbours.
  etransitivity; [apply List.filter_length_le|]. reflexivity.
Qed.

(** X21. In every reachable state a revealed tile that is not a mine is
    drawn as the empty string when its count is 0 and otherwise as its
    count, which lies between 1 and 8 and gets exactly one colour class. *)
Theorem count_has_one_colour (g : Game) (row col : Z) (t : Tile) :
  reachable g -> getTile (board g) row col = Ok t ->
  isRevealed t = true -> isMine t = false ->
  (adjacentMines t = 0%nat /\ tileChildren t = [NEmpty; NFalse]) \/
  ((1 <= adjacentMines t <= 8)%nat /\
   tileChildren t = [NCount (countColours (adjacentMines t)) (adjacentMines t); NFalse] /\
   length (enabled (countColours (adjacentMines t))) = 1%nat).
Proof.
  intros Hreach Hget Hr Hmine.
  destruct (reachable_play_inv g Hreach) as (Hcounts & _).
  pose proof (mineNeighbours_le_8 (board g) row col) as Hle.
  rewrite <- (Hcounts row col t Hget Hmine) in Hle.
  unfold tileChildren. rewrite Hr, Hmine. cbn [negb andb].
  destruct (Nat.ltb_spec 0 (adjacentMines t)) as [Hpos|Hzero].
  - right. split; [lia|]. split; [reflexivity|]. apply enabled_countColours. lia.
  - left. split; [lia|reflexivity].
Qed.

Lemma count_has_one_colour_witness :
  reachable lostGame /\
  getTile (board lostGame) 0 1 = Ok (mkTile false true true 1) /\
  ((adjacentMines (mkTile false true true 1) = 0%nat /\
    tileChildren (mkTile false true true 1) = [NEmpty; NFalse]) \/
   ((1 <= adjacentMines (mkTile false true true 1) <= 8)%nat /\
    tileChildren (mkTile false true true 1) =
      [NCount (countColours (adjacentMines (mkTile false true true 1)))
         (adjacentMines (mkTile false true true 1)); NFalse] /\
    length (enabled (countColours (adjacentMines (mkTile false true true 1)))) = 1%nat)).
Proof.
  split; [exact lostGame_reachable|]. split; [reflexivity|].
  apply (count_has_one_colour lostGame 0 1 (mkTile false true true 1)
           lostGame_reachable); reflexivity.
Defined.

(** X22. In every reachable state the flag counter is drawn in the warning
    colour exactly when [INITIAL_FLAGS] tiles, ten, carry a flag. *)
Theorem counter_warns_when_flags_spent (g : Game) :
  reachable g ->
  (flagsLeftColour (flagsLeft g) = "#FFAAAA"%string <->
   Z.of_nat (countTiles isFlagged (board g)) = INITIAL_FLAGS).
Proof.
  intros Hreach. destruct (reachable_inv g Hreach) as (_ & _ & Hflags & _).
  unfold flagsLeftColour. destruct (Z.eqb_spec (flagsLeft g) 0); split; intros H;
    try reflexivity; try lia; discriminate.
Qed.

Lemma counter_warns_when_flags_spent_witness :
  reachable flagsSpentGame /\
  (flagsLeftColour (flagsLeft flagsSpentGame) = "#FFAAAA"%string <->
   Z.of_nat (countTiles isFlagged (board flagsSpentGame)) = INITIAL_FLAGS).
Proof.
  split; [exact flagsSpentGame_reachable|].
  apply (counter_warns_when_flags_spent flagsSpentGame flagsSpentGame_reachable).
Defined.

(** X23. The pointer cursor tells the truth: in a reachable state, a tile
    that gets the class [cursor-pointer] is revealed by a click on it, and
    the click returns. *)
Theorem pointer_click_reveals (rnd : list Z) (g : Game) (row col : Z) (t : Tile) :
  reachable g -> getTile (board g) row col = Ok t ->
  In "cursor-pointer"%string (enabled (tileClasses t (isGameOver g) (isGameWon g))) ->
  exists g' t',
    handleTileClick rnd g row col = Ok (g', rnd) /\
    getTile (board g') row col = Ok t' /\ isRevealed t' = true.
Proof.
  intros Hreach Hget Hptr.
  assert (isRevealed t = false /\ isFlagged t = false /\
          isGameOver g = false /\ isGameWon g = false) as (Hr & Hf & Ho & Hw).
  { unfold enabled, tileClasses in Hptr.
    destruct (isRevealed t), (isFlagged t), (isGameOver g), (isGameWon g);
      simpl in Hptr; intuition discriminate. }
  pose proof (reachable_inv g Hreach) as Hinv.
  pose proof (reachable_not_pristine' g Hinv) as Hnp.
  destruct Hinv as (Hwf & _).
  pose proof (getTile_wf_inGrid _ _ _ _ Hwf Hget) as Hin.
  destruct (revealTile_fuel_enough (board g) row col [] Hwf Hin) as ([b' vis] & Hall).
  specialize (Hall (S (countTiles unrevealed (board g))) (Nat.lt_succ_diag_r _)).
  assert (revealTile (board g) row col = Ok b') as Hrev
    by (unfold revealTile; rewrite Hall; reflexivity).
  pose proof (revealTile_rel _ _ _ _ Hrev) as Hrel.
  destruct (revealTile_fuel_settles _ _ _ _ _ _ Hall) as (u & Hu & Hset).
  simpl in Hu.
  assert (isRevealed u = true) as Hur.
  { destruct (grid_rel_getTile_l _ _ _ _ _ _ Hrel Hget) as (u' & Hu' & Hstep).
    assert (u' = u) as -> by congruence.
    destruct Hstep as [->|(_ & _ & ->)]; [|reflexivity].
    rewrite Hr, Hf in Hset. discriminate. }
  unfold handleTileClick. rewrite Ho, Hw, Hnp. cbn [orb bind].
  rewrite Hrev. cbn [bind]. cbv zeta. rewrite Hu. cbn [bind].
  destruct (isMine u); [|destruct (checkWinCondition b')];
    eexists; eexists; (split; [reflexivity|]); cbn [board setBoard];
    try (split; [apply getTile_revealBoard; exact Hu|reflexivity]).
  split; [exact Hu|exact Hur].
Qed.

Lemma pointer_click_reveals_witness :
  reachable sampleGame /\
  getTile (board sampleGame) 0 1 = Ok (mkTile false false false 1) /\
  exists g' t',
    handleTileClick [] sampleGame 0 1 = Ok (g', []) /\
    getTile (board g') 0 1 = Ok t' /\ isRevealed t' = true.
Proof.
  split; [exact sampleGame_reachable|]. split; [reflexivity|].
  apply (pointer_click_reveals [] sampleGame 0 1 (mkTile false false false 1)
           sampleGame_reachable).
  - reflexivity.
  - simpl. right. left. reflexivity.
Defined.
